(** * Field whitelisting over nested schemas

    A shallow embedding of [nestedfunctions/functions/whitelist.py]: the
    [WhitelistProcessor] that, given a data frame and a list of dotted field
    paths to keep, computes the set of flattened paths to drop and drops
    them one by one, forcing a materialization every tenth drop.

    Python strings are [string]; Python lists are [list]; a Python [set] is
    the list of its elements in iteration order, an order the language does
    not fix and which is therefore a parameter of the development
    ([SetOrder]); logging is a writer effect ([Logged]). *)

From Stdlib Require Import List String Ascii Bool Arith Lia Permutation.
Import ListNotations.
Open Scope string_scope.
Open Scope list_scope.

Set Implicit Arguments.

(** ** Python string primitives *)

Module PyStr.

(** [s.startswith(p)]: [p] is a textual prefix of [s]. *)
Fixpoint startswith (p s : string) : bool :=
  match p, s with
  | EmptyString, _ => true
  | String a p', String b s' => Ascii.eqb a b && startswith p' s'
  | String _ _, EmptyString => false
  end.

(** [sub in s] on [str]: [sub] occurs in [s] as a contiguous substring. *)
Fixpoint str_in (sub s : string) : bool :=
  startswith sub s ||
  match s with
  | EmptyString => false
  | String _ s' => str_in sub s'
  end.

(** [os.path.commonprefix([s1, s2])]: the longest string that is a
    character-wise prefix of both. *)
Fixpoint commonprefix (s1 s2 : string) : string :=
  match s1, s2 with
  | String a s1', String b s2' =>
      if Ascii.eqb a b then String a (commonprefix s1' s2') else EmptyString
  | _, _ => EmptyString
  end.

(** Membership [x in xs] for a list or a set of strings. *)
Definition mem (x : string) (xs : list string) : bool :=
  existsb (String.eqb x) xs.

(** Propositional reading of the substring test. *)
Definition Substring (sub s : string) : Prop :=
  exists pre post, s = (pre ++ sub ++ post)%string.

(** Propositional reading of the prefix test. *)
Definition Prefix (p s : string) : Prop :=
  exists post, s = (p ++ post)%string.

End PyStr.
Import PyStr.

(** ** Python sets *)

(** A [set] built from a sequence holds the distinct elements of the
    sequence; the order in which a [for] loop visits them depends on the
    hashes and on the insertion history.  [set_of] gives that order for the
    set built from a sequence, and all that is known about it is that it
    enumerates the distinct elements. *)
Class SetOrder := {
  set_of : list string -> list string;
  set_of_perm : forall l, Permutation (set_of l) (nodup string_dec l)
}.

(** One concrete order, used to evaluate examples. *)
#[export] Instance nodup_order : SetOrder :=
  {| set_of := nodup string_dec;
     set_of_perm := fun l => Permutation_refl _ |}.

(** [a - b] on sets. *)
Definition set_diff (a b : list string) : list string :=
  filter (fun x => negb (mem x b)) a.

(** [a == b] on sets: same elements. *)
Definition set_eqb (a b : list string) : bool :=
  forallb (fun x => mem x b) a && forallb (fun x => mem x a) b.

(** [itertools.combinations(xs, 2)]: the pairs of elements at positions
    [i < j], in lexicographic order of positions. *)
Fixpoint combinations2 (xs : list string) : list (string * string) :=
  match xs with
  | [] => []
  | x :: t => map (pair x) t ++ combinations2 t
  end.

(** ** Logging *)

Inductive Level := DEBUG | WARNING.

Inductive Message :=
| NoFieldsToSelect (whitelist_columns flattened : list string)
| FieldsToDrop (fields_to_drop : list string)
| TimeToForceCalculation
| FieldNotFound (field : string)
| RootElementsFound (root_elements : list string).

Definition LogRecord : Type := Level * Message.

(** A computation that returns a value and appends records to the log. *)
Definition Logged (A : Type) : Type := A * list LogRecord.

Definition ret {A} (a : A) : Logged A := (a, []).

Definition bind {A B} (m : Logged A) (k : A -> Logged B) : Logged B :=
  let '(a, l1) := m in
  let '(b, l2) := k a in
  (b, l1 ++ l2).

Definition log_warning (m : Message) : Logged unit := (tt, [(WARNING, m)]).
Definition log_debug (m : Message) : Logged unit := (tt, [(DEBUG, m)]).

Declare Scope logged_scope.
Delimit Scope logged_scope with logged.
Notation "x <- m ;; k" := (bind m (fun x => k))
  (at level 61, m at next level, right associativity) : logged_scope.
Notation "m ;; k" := (bind m (fun _ => k))
  (at level 61, right associativity) : logged_scope.

Definition value {A} (m : Logged A) : A := fst m.
Definition logs {A} (m : Logged A) : list LogRecord := snd m.

(** A [for] loop whose body logs: the loop state is threaded left to
    right and the logs are concatenated in iteration order. *)
Fixpoint for_each {A S} (xs : list A) (body : S -> A -> Logged S) (s : S)
  : Logged S :=
  match xs with
  | [] => ret s
  | x :: t => bind (body s x) (for_each t body)
  end.

(** ** Schemas and the host engine *)

(** Modelled from the spec: the schema tree of section 3 (the source imports
    [StructType] from the engine).  A field has a name, a type tag and child
    fields; only struct-typed fields and arrays of structs have children
    that are traversed. *)
Inductive FieldType := Primitive | Struct | ArrayOfStruct | ArrayOfPrimitive.

#[warnings="-register-all"]
Inductive Field :=
| mkField (name : string) (tag : FieldType) (children : list Field).

Definition Schema : Type := list Field.

(** The full dotted path of a field: parent path, ".", name. *)
Definition dotted (prefix : option string) (name : string) : string :=
  match prefix with
  | None => name
  | Some p => (p ++ "." ++ name)%string
  end.

Definition has_nested (tag : FieldType) : bool :=
  match tag with
  | Struct | ArrayOfStruct => true
  | Primitive | ArrayOfPrimitive => false
  end.

(** Modelled from the spec: [SparkSchemaUtility.flatten_schema], which is
    not among the sources.  Section 4.1: a depth-first traversal yielding
    the dotted path of every leaf and of every intermediate struct node,
    an array of structs being traversed like a struct. *)
Fixpoint flatten_field (prefix : option string) (f : Field) : list string :=
  match f with
  | mkField name tag children =>
      let path := dotted prefix name in
      path :: (if has_nested tag
               then flat_map (flatten_field (Some path)) children
               else [])
  end.

Definition flatten_schema (schema : Schema) : list string :=
  flat_map (flatten_field None) schema.

(** Modelled from the spec: [SparkSchemaUtility.is_column_exist], which is
    not among the sources.  Section 4.1 and step 2 of section 4.2: a path
    exists when it is present in the flattened schema. *)
Definition is_column_exist (schema : Schema) (field : string) : bool :=
  mem field (flatten_schema schema).

(** Modelled from the spec: [iterator_utils.distinct], which is not among
    the sources.  Step 1 of section 4.2: de-duplicate, preserving the order
    of first occurrence. *)
Fixpoint distinct_from (seen xs : list string) : list string :=
  match xs with
  | [] => []
  | x :: t =>
      if mem x seen then distinct_from seen t
      else x :: distinct_from (x :: seen) t
  end.

Definition distinct (xs : list string) : list string := distinct_from [] xs.

(** Modelled from the spec: the data frame of the host engine (section 6).
    A frame is a lazily built plan: it carries its schema, its number of
    rows and the operations recorded on it so far. *)
Inductive EngineOp :=
| OpDrop (field : string)
| OpCache
| OpLimit (n : nat).

Record DataFrame := {
  schema : Schema;
  rows : nat;
  plan : list EngineOp
}.

(** Modelled from the spec: removal of the field at a dotted path from a
    schema tree; a path that is not in the tree leaves it unchanged. *)
Fixpoint drop_in_field (path : string) (prefix : option string) (f : Field)
  : list Field :=
  match f with
  | mkField name tag children =>
      let p := dotted prefix name in
      if String.eqb p path then []
      else [mkField name tag (flat_map (drop_in_field path (Some p)) children)]
  end.

(** Modelled from the spec: [nestedfunctions.functions.drop.drop], which is
    not among the sources ([drop_field] of section 6). *)
Definition drop (df : DataFrame) (field : string) : DataFrame :=
  {| schema := flat_map (drop_in_field field None) (schema df);
     rows := rows df;
     plan := plan df ++ [OpDrop field] |}.

(** [df.cache()]: same frame, materialization recorded. *)
Definition cache (df : DataFrame) : DataFrame :=
  {| schema := schema df; rows := rows df; plan := plan df ++ [OpCache] |}.

(** [df.limit(n)]: same schema, at most [n] rows. *)
Definition limit (df : DataFrame) (n : nat) : DataFrame :=
  {| schema := schema df;
     rows := Nat.min n (rows df);
     plan := plan df ++ [OpLimit n] |}.

(** Which kind of operation a recorded plan entry is. *)
Definition is_drop_op (op : EngineOp) : bool :=
  match op with OpDrop _ => true | _ => false end.

Definition is_cache_op (op : EngineOp) : bool :=
  match op with OpCache => true | _ => false end.

Definition is_limit_op (op : EngineOp) : bool :=
  match op with OpLimit _ => true | _ => false end.

(** ** The whitelist processor *)

Open Scope logged_scope.

Definition NUMBER_OF_ITERATIONS_TO_FORCE_CATALYST_FLUSH : nat := 10.

Definition force_calculation (df : DataFrame) : DataFrame := cache df.

(** [__replace_elements_with_root]: one pass over [fields] with the flag
    [root_added]. *)
Definition replace_elements_with_root (fields : list string) (root : string)
  : list string :=
  fst (fold_left
         (fun (st : list string * bool) (f : string) =>
            let '(res, root_added) := st in
            if str_in root f then
              if negb root_added then (res ++ [root], true)
              else (res, root_added)
            else (res ++ [f], root_added))
         fields ([], false)).

(** [__replace_elements_with_roots]: [roots] is a set, visited in its
    iteration order. *)
Definition replace_elements_with_roots (fields roots : list string)
  : list string :=
  fold_left replace_elements_with_root roots fields.

(** The loop of [__replace_elements_with_root] read structurally: what is
    appended to [res] from the flag value [root_added] onwards. *)
Fixpoint replace_loop (root : string) (root_added : bool)
         (fields : list string) : list string :=
  match fields with
  | [] => []
  | f :: rest =>
      if str_in root f then
        if root_added then replace_loop root true rest
        else root :: replace_loop root true rest
      else f :: replace_loop root root_added rest
  end.

(** The fields that do not contain [root] as a substring. *)
Definition without (root : string) (fields : list string) : list string :=
  filter (fun f => negb (str_in root f)) fields.

Section Processor.

Context {order : SetOrder}.

(** The set comprehension of [filter_only_parents_fields]: the non-empty
    common prefixes of all pairs. *)
Definition common_elements (fields : list string) : list string :=
  set_of
    (map (fun c : string * string => commonprefix (fst c) (snd c))
         (filter (fun c : string * string =>
                    negb (String.eqb (commonprefix (fst c) (snd c)) ""))
                 (combinations2 fields))).

Definition root_elements (fields : list string) : list string :=
  set_of (filter (fun f => mem f (common_elements fields)) fields).

Definition filter_only_parents_fields (fields : list string)
  : Logged (list string) :=
  let roots := root_elements fields in
  (if negb (Nat.eqb (List.length roots) 0)
   then log_warning (RootElementsFound roots)
   else ret tt) ;;
  ret (replace_elements_with_roots fields roots).

Record WhitelistProcessor := { whitelist_columns : list string }.

(** [is_field_need_to_be_dropped]: the loop returns [False] at the first
    parent field that occurs in [field]. *)
Fixpoint is_field_need_to_be_dropped (field : string)
         (parent_fields : list string) : bool :=
  match parent_fields with
  | [] => true
  | parent_field :: rest =>
      if str_in parent_field field then false
      else is_field_need_to_be_dropped field rest
  end.

(** [__filter_only_existing_fields] *)
Definition filter_only_existing_fields (sch : Schema) (fields : list string)
  : Logged (list string) :=
  for_each (distinct fields)
    (fun res field =>
       if is_column_exist sch field then ret (res ++ [field])
       else log_warning (FieldNotFound field) ;; ret res)
    [].

Definition no_fields_to_select (self : WhitelistProcessor) (df : DataFrame)
  : bool :=
  let flattened_fields := set_of (flatten_schema (schema df)) in
  if set_eqb (set_diff (set_of flattened_fields)
                       (set_of (whitelist_columns self)))
             flattened_fields
  then true else false.

(** The local [whitelist_parent_fields] of [find_fields_to_drop]: the
    resolved keep-roots, as a set. *)
Definition whitelist_parent_fields (self : WhitelistProcessor)
           (df : DataFrame) : Logged (list string) :=
  only_existing_columns <-
    filter_only_existing_fields (schema df) (whitelist_columns self) ;;
  parents <- filter_only_parents_fields only_existing_columns ;;
  ret (set_of parents).

Definition find_fields_to_drop (self : WhitelistProcessor) (df : DataFrame)
  : Logged (list string) :=
  parent_fields <- whitelist_parent_fields self df ;;
  let all_fields := flatten_schema (schema df) in
  ret (set_of (filter (fun field =>
                         is_field_need_to_be_dropped field parent_fields)
                      all_fields)).

(** [enumerate(xs)] *)
Definition enumerate {A} (xs : list A) : list (nat * A) :=
  combine (seq 0 (List.length xs)) xs.

(** The body of the loop of [drop_fields], at index [idx]. *)
Definition drop_fields_body (df : DataFrame) (it : nat * string)
  : Logged DataFrame :=
  let '(idx, field_to_drop) := it in
  let df := drop df field_to_drop in
  if Nat.eqb ((idx + 1) mod NUMBER_OF_ITERATIONS_TO_FORCE_CATALYST_FLUSH) 0
  then log_debug TimeToForceCalculation ;; ret (force_calculation df)
  else ret df.

(** [drop_fields]: [fields_to_drop] is a set, visited in its iteration
    order. *)
Definition drop_fields (df : DataFrame) (fields_to_drop : list string)
  : Logged DataFrame :=
  for_each (enumerate fields_to_drop) drop_fields_body df.

Definition process (self : WhitelistProcessor) (df : DataFrame)
  : Logged DataFrame :=
  if no_fields_to_select self df then
    log_warning (NoFieldsToSelect (whitelist_columns self)
                                  (flatten_schema (schema df))) ;;
    ret (limit df 0)
  else
    fields_to_drop <- find_fields_to_drop self df ;;
    log_debug (FieldsToDrop fields_to_drop) ;;
    drop_fields df fields_to_drop.

Definition whitelist (df : DataFrame) (fields : list string)
  : Logged DataFrame :=
  process {| whitelist_columns := fields |} df.

End Processor.

Close Scope logged_scope.

(** ** Example frames *)

(** The schema [{a: {b: int, c: int}, d: int}]. *)
Definition schema_abcd : Schema :=
  [ mkField "a" Struct [ mkField "b" Primitive []; mkField "c" Primitive [] ];
    mkField "d" Primitive [] ].

Definition df_abcd : DataFrame :=
  {| schema := schema_abcd; rows := 3; plan := [] |}.

(** The schema [{a: {b: int}, b: int}]: the top-level name [b] also occurs
    inside the path [a.b]. *)
Definition schema_a_b : Schema :=
  [ mkField "a" Struct [ mkField "b" Primitive [] ];
    mkField "b" Primitive [] ].

Definition df_a_b : DataFrame :=
  {| schema := schema_a_b; rows := 2; plan := [] |}.

(** The schema [{a: {b: {c: int}}}]. *)
Definition schema_nested : Schema :=
  [ mkField "a" Struct [ mkField "b" Struct [ mkField "c" Primitive [] ] ] ].

Definition df_nested : DataFrame :=
  {| schema := schema_nested; rows := 1; plan := [] |}.

(** The flat schema [{ab: int, abc: int, xab: int, z: int}]. *)
Definition schema_flat : Schema :=
  [ mkField "ab" Primitive []; mkField "abc" Primitive [];
    mkField "xab" Primitive []; mkField "z" Primitive [] ].

Definition df_flat : DataFrame :=
  {| schema := schema_flat; rows := 5; plan := [] |}.



(** The schema [{a: {b: {c: int}}, d: int}]. *)
Definition schema_nested_d : Schema :=
  schema_nested ++ [ mkField "d" Primitive [] ].

Definition df_nested_d : DataFrame :=
  {| schema := schema_nested_d; rows := 2; plan := [] |}.

(** A frame on which seven drops were already recorded. *)
Definition df_seven : DataFrame :=
  {| schema := schema_flat; rows := 5;
     plan := map OpDrop ["p1"; "p2"; "p3"; "p4"; "p5"; "p6"; "p7"] |}.

Definition ten_fields : list string :=
  ["f1"; "f2"; "f3"; "f4"; "f5"; "f6"; "f7"; "f8"; "f9"; "f10"].

(** ** Invariant of the root-collapse loop

    The state of the loop of [__replace_elements_with_roots] over the
    requested [fields]: [current] is the list held in [res] and [visited]
    the roots already processed. *)
Record collapse_inv (fields current visited : list string) : Prop := {
  inv_sub : forall x, In x current -> In x fields;
  inv_cover : forall x, In x fields ->
      In x current \/
      exists r, In r visited /\ str_in r x = true /\ r <> x;
  inv_min : forall r x,
      In r visited -> In x current -> str_in r x = true -> x = r;
  inv_nodup : NoDup current
}.

(** * Properties *)

(** ** Strings *)

Section StringFacts.

Lemma startswith_Prefix p s : startswith p s = true <-> Prefix p s.
Proof.
  revert s; induction p as [|a p IH]; intros s; simpl.
  - split; [intros _; exists s; reflexivity | reflexivity].
  - destruct s as [|b s].
    + split; [discriminate | intros [post H]; discriminate H].
    + rewrite andb_true_iff, Ascii.eqb_eq, IH. split.
      * intros [-> [post ->]]. exists post. reflexivity.
      * intros [post H]. simpl in H. injection H as -> ->.
        split; [reflexivity | exists post; reflexivity].
Qed.

Lemma str_in_Substring sub s : str_in sub s = true <-> Substring sub s.
Proof.
  induction s as [|b s IH].
  - simpl. rewrite orb_false_r, startswith_Prefix. split.
    + intros [post H]. exists "", post. exact H.
    + intros [pre [post H]].
      destruct pre; [exists post; exact H | discriminate H].
  - simpl. rewrite orb_true_iff, startswith_Prefix, IH. split.
    + intros [[post H] | [pre [post H]]].
      * exists "", post. exact H.
      * exists (String b pre), post. simpl. now rewrite H.
    + intros [pre [post H]]. destruct pre as [|c pre].
      * left. exists post. exact H.
      * right. simpl in H. injection H as _ H. now exists pre, post.
Qed.

Lemma startswith_refl s : startswith s s = true.
Proof. induction s; simpl; [|rewrite Ascii.eqb_refl]; auto. Qed.

Lemma startswith_str_in p s : startswith p s = true -> str_in p s = true.
Proof. intros H. destruct s; simpl; rewrite H; reflexivity. Qed.

Lemma str_in_refl s : str_in s s = true.
Proof. apply startswith_str_in, startswith_refl. Qed.

Lemma append_assoc a b c : ((a ++ b) ++ c)%string = (a ++ (b ++ c))%string.
Proof. induction a; simpl; congruence. Qed.

Lemma str_in_trans a b c :
  str_in a b = true -> str_in b c = true -> str_in a c = true.
Proof.
  rewrite !str_in_Substring.
  intros [p1 [q1 ->]] [p2 [q2 ->]].
  exists (p2 ++ p1)%string, (q1 ++ q2)%string.
  now rewrite !append_assoc.
Qed.

Lemma append_length a b :
  String.length (a ++ b)%string = String.length a + String.length b.
Proof. induction a; simpl; auto. Qed.

Lemma append_nil_r a : (a ++ "")%string = a.
Proof. induction a; simpl; congruence. Qed.

Lemma str_in_antisym a b :
  str_in a b = true -> str_in b a = true -> a = b.
Proof.
  rewrite !str_in_Substring.
  intros [p1 [q1 H1]] [p2 [q2 H2]].
  assert (L1 := f_equal String.length H1).
  assert (L2 := f_equal String.length H2).
  rewrite !append_length in L1, L2.
  destruct p1; [|simpl in L1; lia].
  destruct q1; [|simpl in L1; lia].
  simpl in H1. now rewrite append_nil_r in H1.
Qed.

Lemma commonprefix_startswith_l a b : startswith (commonprefix a b) a = true.
Proof.
  revert b; induction a as [|x a IH]; intros [|y b]; simpl; auto.
  destruct (Ascii.eqb x y); simpl; auto.
  now rewrite Ascii.eqb_refl, IH.
Qed.

Lemma commonprefix_comm a b : commonprefix a b = commonprefix b a.
Proof.
  revert b; induction a as [|x a IH]; intros [|y b]; simpl; auto.
  rewrite (Ascii.eqb_sym y x).
  destruct (Ascii.eqb x y) eqn:E; auto.
  apply Ascii.eqb_eq in E. subst. now rewrite IH.
Qed.

Lemma commonprefix_startswith_r a b : startswith (commonprefix a b) b = true.
Proof. rewrite commonprefix_comm. apply commonprefix_startswith_l. Qed.

Lemma commonprefix_of_prefix a b :
  startswith a b = true -> commonprefix a b = a.
Proof.
  revert b; induction a as [|x a IH]; intros [|y b]; simpl; auto.
  - discriminate.
  - rewrite andb_true_iff. intros [E H]. rewrite E.
    apply Ascii.eqb_eq in E. subst. now rewrite IH.
Qed.

Lemma mem_In x xs : mem x xs = true <-> In x xs.
Proof.
  unfold mem. rewrite existsb_exists. split.
  - intros [y [Hy E]]. apply String.eqb_eq in E. now subst.
  - intros H. exists x. split; [exact H | apply String.eqb_refl].
Qed.

Lemma mem_false x xs : mem x xs = false <-> ~ In x xs.
Proof.
  rewrite <- mem_In. destruct (mem x xs); split; congruence.
Qed.

End StringFacts.

(** ** Sets *)

Section SetFacts.

Context {order : SetOrder}.

Lemma set_of_In x l : In x (set_of l) <-> In x l.
Proof.
  rewrite <- (nodup_In string_dec l x). split; intros H.
  - eapply Permutation_in; [apply set_of_perm | exact H].
  - eapply Permutation_in; [apply Permutation_sym, set_of_perm | exact H].
Qed.

Lemma set_of_NoDup l : NoDup (set_of l).
Proof.
  eapply Permutation_NoDup; [apply Permutation_sym, set_of_perm|].
  apply NoDup_nodup.
Qed.


Lemma set_of_singleton x : set_of [x] = [x].
Proof.
  apply Permutation_length_1_inv, Permutation_sym. exact (set_of_perm [x]).
Qed.

End SetFacts.

(** ** One replacement pass *)

Section OnePass.

Variable root : string.

Lemma replace_fold fields res added :
  fold_left
    (fun (st : list string * bool) (f : string) =>
       let '(res, root_added) := st in
       if str_in root f then
         if negb root_added then (res ++ [root], true)
         else (res, root_added)
       else (res ++ [f], root_added))
    fields (res, added)
  = (res ++ replace_loop root added fields,
     added || existsb (str_in root) fields).
Proof.
  revert res added; induction fields as [|f t IH]; intros res added; simpl.
  - now rewrite app_nil_r, orb_false_r.
  - destruct (str_in root f) eqn:E; simpl.
    + destruct added; simpl; rewrite IH; simpl.
      * reflexivity.
      * now rewrite <- app_assoc.
    + rewrite IH, <- app_assoc. reflexivity.
Qed.

Lemma replace_elements_with_root_loop fields :
  replace_elements_with_root fields root = replace_loop root false fields.
Proof.
  unfold replace_elements_with_root. now rewrite replace_fold.
Qed.

Lemma replace_loop_added fields :
  replace_loop root true fields = without root fields.
Proof.
  induction fields as [|f t IH]; simpl; auto.
  destruct (str_in root f); simpl; now rewrite IH.
Qed.

Lemma replace_none fields :
  (forall f, In f fields -> str_in root f = false) ->
  replace_elements_with_root fields root = fields.
Proof.
  rewrite replace_elements_with_root_loop.
  induction fields as [|f t IH]; simpl; intros H; auto.
  rewrite (H f (or_introl eq_refl)), IH; auto.
Qed.

Lemma replace_first pre f post :
  (forall g, In g pre -> str_in root g = false) ->
  str_in root f = true ->
  replace_elements_with_root (pre ++ f :: post) root
  = pre ++ root :: without root post.
Proof.
  rewrite replace_elements_with_root_loop.
  induction pre as [|g pre IH]; simpl; intros Hpre Hf.
  - now rewrite Hf, replace_loop_added.
  - rewrite (Hpre g (or_introl eq_refl)), IH; auto.
Qed.

Lemma first_containing fields :
  (forall f, In f fields -> str_in root f = false) \/
  exists pre f post,
    fields = pre ++ f :: post /\
    (forall g, In g pre -> str_in root g = false) /\
    str_in root f = true.
Proof.
  induction fields as [|f t IH].
  - left. intros f [].
  - destruct (str_in root f) eqn:E.
    + right. exists [], f, t. repeat split; auto. intros g [].
    + destruct IH as [IH | [pre [g [post [-> [Hpre Hg]]]]]].
      * left. intros g [<- | Hg]; auto.
      * right. exists (f :: pre), g, post. repeat split; auto.
        intros h [<- | Hh]; auto.
Qed.

Lemma without_In x fields :
  In x (without root fields) <-> In x fields /\ str_in root x = false.
Proof.
  unfold without. rewrite filter_In, negb_true_iff. reflexivity.
Qed.

Lemma replace_In x fields :
  In x (replace_elements_with_root fields root) <->
  (In x fields /\ str_in root x = false) \/
  (x = root /\ exists f, In f fields /\ str_in root f = true).
Proof.
  destruct (first_containing fields) as [H | [pre [f [post [-> [Hpre Hf]]]]]].
  - rewrite replace_none by exact H. split.
    + intros Hx. left. split; auto.
    + intros [[Hx _] | [_ [f [Hf E]]]]; auto.
      rewrite (H f Hf) in E. discriminate E.
  - rewrite replace_first by assumption.
    rewrite in_app_iff. simpl. rewrite without_In, in_app_iff. simpl. split.
    + intros [Hx | [<- | [Hx E]]].
      * left. split; auto.
      * right. split; auto. exists f. split; auto.
        apply in_or_app. right. now left.
      * left. split; auto.
    + intros [[[Hx | [<- | Hx]] E] | [-> _]]; auto.
      rewrite Hf in E. discriminate E.
Qed.

Lemma replace_NoDup fields :
  NoDup fields -> NoDup (replace_elements_with_root fields root).
Proof.
  induction fields as [|f t IH]; intros ND;
    rewrite replace_elements_with_root_loop; simpl.
  - constructor.
  - apply NoDup_cons_iff in ND as [Hf ND].
    destruct (str_in root f) eqn:E.
    + rewrite replace_loop_added. constructor.
      * rewrite without_In, str_in_refl. intros [_ H]. discriminate H.
      * now apply NoDup_filter.
    + rewrite <- replace_elements_with_root_loop. constructor; auto.
      rewrite replace_In. intros [[H _] | [-> _]]; auto.
      rewrite str_in_refl in E. discriminate E.
Qed.

Lemma replace_loop_filter (Q : string -> bool) added fields :
  (forall x, str_in root x = true -> Q x = false) ->
  filter Q (replace_loop root added fields) = filter Q fields.
Proof.
  intros HQ. revert added.
  induction fields as [|f t IH]; intros added; simpl; auto.
  destruct (str_in root f) eqn:E.
  - rewrite (HQ f E). destruct added; simpl; auto.
    now rewrite (HQ root (str_in_refl root)).
  - simpl. now rewrite IH.
Qed.

Lemma replace_filter (Q : string -> bool) fields :
  (forall x, str_in root x = true -> Q x = false) ->
  filter Q (replace_elements_with_root fields root) = filter Q fields.
Proof.
  intros HQ. rewrite replace_elements_with_root_loop.
  now apply replace_loop_filter.
Qed.

End OnePass.

(** ** All replacement passes *)

Section Collapse.

Variable fields : list string.

Lemma collapse_inv_init : NoDup fields -> collapse_inv fields fields [].
Proof.
  intros ND. split; auto.
  intros r x [].
Qed.

Lemma collapse_inv_step current visited r :
  collapse_inv fields current visited ->
  In r fields ->
  collapse_inv fields (replace_elements_with_root current r) (r :: visited).
Proof.
  intros [Hsub Hcov Hmin Hnd] Hr. split.
  - intros x Hx. apply replace_In in Hx as [[Hx _] | [-> _]]; auto.
  - intros x Hx. destruct (Hcov x Hx) as [Hc | [r' [Hr' [E N]]]].
    + destruct (str_in r x) eqn:E.
      * destruct (string_dec r x) as [<- | N].
        -- left. apply replace_In. right. split; auto. now exists r.
        -- right. exists r. simpl. auto.
      * left. apply replace_In. left. auto.
    + right. exists r'. simpl. auto.
  - intros r' x Hr' Hx E.
    apply replace_In in Hx as [[Hx Ex] | [-> [f [Hf Ef]]]].
    + destruct Hr' as [<- | Hr']; [congruence | eauto].
    + destruct Hr' as [<- | Hr']; auto.
      assert (f = r') as -> by (apply (Hmin r' f); eauto using str_in_trans).
      now apply str_in_antisym.
  - now apply replace_NoDup.
Qed.

Lemma collapse_inv_fold roots : forall current visited,
  collapse_inv fields current visited ->
  (forall r, In r roots -> In r fields) ->
  collapse_inv fields (replace_elements_with_roots current roots)
               (rev roots ++ visited).
Proof.
  unfold replace_elements_with_roots.
  induction roots as [|r roots IH]; intros current visited Hinv Hroots; simpl.
  - exact Hinv.
  - rewrite <- app_assoc. simpl. apply IH.
    + apply collapse_inv_step; auto. apply Hroots. now left.
    + intros r' Hr'. apply Hroots. now right.
Qed.

(** The outcome of the passes does not depend on the order in which the
    roots are visited: a field stays exactly when no root other than
    itself occurs in it. *)
Lemma replace_elements_with_roots_In roots x :
  NoDup fields ->
  (forall r, In r roots -> In r fields) ->
  In x (replace_elements_with_roots fields roots) <->
  In x fields /\ (forall r, In r roots -> str_in r x = true -> r = x).
Proof.
  intros ND Hroots.
  destruct (collapse_inv_fold roots (collapse_inv_init ND) Hroots)
    as [Hsub Hcov Hmin _].
  rewrite app_nil_r in Hcov, Hmin. split.
  - intros Hx. split; auto.
    intros r Hr E. symmetry. apply (Hmin r x); auto.
    now apply in_rev in Hr.
  - intros [Hx Hall]. destruct (Hcov x Hx) as [Hc | [r [Hr [E N]]]]; auto.
    apply in_rev in Hr. elim N. auto.
Qed.

Lemma replace_elements_with_roots_NoDup roots :
  NoDup fields ->
  (forall r, In r roots -> In r fields) ->
  NoDup (replace_elements_with_roots fields roots).
Proof.
  intros ND Hroots.
  now destruct (collapse_inv_fold roots (collapse_inv_init ND) Hroots).
Qed.

End Collapse.

Lemma replace_elements_with_roots_filter (Q : string -> bool) roots :
  forall fields,
  (forall r x, In r roots -> str_in r x = true -> Q x = false) ->
  filter Q (replace_elements_with_roots fields roots) = filter Q fields.
Proof.
  unfold replace_elements_with_roots.
  induction roots as [|r roots IH]; intros fields HQ; simpl; auto.
  rewrite IH.
  - apply replace_filter. intros x. apply HQ. now left.
  - intros r' x Hr'. apply HQ. now right.
Qed.

(** ** Pairs, de-duplication and root detection *)

Lemma combinations2_In xs x y :
  In (x, y) (combinations2 xs) -> In x xs /\ In y xs.
Proof.
  induction xs as [|a t IH]; simpl; [tauto|].
  rewrite in_app_iff, in_map_iff.
  intros [[z [E Hz]] | H].
  - injection E as <- <-. auto.
  - destruct (IH H). auto.
Qed.

Lemma combinations2_neq xs x y :
  NoDup xs -> In (x, y) (combinations2 xs) -> x <> y.
Proof.
  induction xs as [|a t IH]; simpl; [tauto|].
  intros ND. apply NoDup_cons_iff in ND as [Ha ND].
  rewrite in_app_iff, in_map_iff.
  intros [[z [E Hz]] | H]; auto.
  injection E as <- <-. congruence.
Qed.

Lemma combinations2_complete xs x y :
  In x xs -> In y xs -> x <> y ->
  In (x, y) (combinations2 xs) \/ In (y, x) (combinations2 xs).
Proof.
  induction xs as [|a t IH]; simpl; [tauto|].
  rewrite !in_app_iff, !in_map_iff.
  intros [-> | Hx] [-> | Hy] N.
  - congruence.
  - left. left. now exists y.
  - right. left. now exists x.
  - destruct (IH Hx Hy N); auto.
Qed.

Lemma distinct_from_In seen xs x :
  In x (distinct_from seen xs) <-> In x xs /\ ~ In x seen.
Proof.
  revert seen; induction xs as [|a t IH]; intros seen; simpl; [tauto|].
  destruct (mem a seen) eqn:E.
  - apply mem_In in E. rewrite IH. split; [tauto|].
    intros [[-> | H] N]; tauto.
  - apply mem_false in E. simpl. rewrite IH. simpl. split.
    + intros [-> | [H N]]; tauto.
    + intros [[-> | H] N]; auto.
      destruct (string_dec a x); [auto | right; tauto].
Qed.

Lemma distinct_from_NoDup seen xs : NoDup (distinct_from seen xs).
Proof.
  revert seen; induction xs as [|a t IH]; intros seen; simpl.
  - constructor.
  - destruct (mem a seen); auto.
    constructor; auto. rewrite distinct_from_In. simpl. tauto.
Qed.

Lemma distinct_In xs x : In x (distinct xs) <-> In x xs.
Proof. unfold distinct. rewrite distinct_from_In. simpl. tauto. Qed.

Lemma distinct_NoDup xs : NoDup (distinct xs).
Proof. apply distinct_from_NoDup. Qed.

Section Roots.

Context {order : SetOrder}.

Lemma common_elements_In fields c :
  In c (common_elements fields) <->
  c <> "" /\ exists c1 c2,
    In (c1, c2) (combinations2 fields) /\ commonprefix c1 c2 = c.
Proof.
  unfold common_elements. rewrite set_of_In, in_map_iff. split.
  - intros [[c1 c2] [E H]]. apply filter_In in H as [H N]. simpl in *.
    apply negb_true_iff, String.eqb_neq in N. subst c. eauto.
  - intros [N [c1 [c2 [H E]]]]. exists (c1, c2). split; auto.
    apply filter_In. split; auto. simpl.
    apply negb_true_iff, String.eqb_neq. now rewrite E.
Qed.

(** A requested path is a root element exactly when it is a non-empty
    proper textual prefix of another requested path. *)
Lemma root_elements_In fields r :
  NoDup fields ->
  In r (root_elements fields) <->
  In r fields /\ r <> "" /\
  exists g, In g fields /\ g <> r /\ startswith r g = true.
Proof.
  intros ND. unfold root_elements.
  rewrite set_of_In, filter_In, mem_In, common_elements_In. split.
  - intros [Hr [N [c1 [c2 [H E]]]]]. repeat split; auto.
    assert (Hn := combinations2_neq ND H).
    destruct (@combinations2_In fields c1 c2 H) as [H1 H2].
    destruct (string_dec c1 r) as [E1 | N1].
    + exists c2. repeat split; auto; [congruence|].
      rewrite <- E. apply commonprefix_startswith_r.
    + exists c1. repeat split; auto.
      rewrite <- E. apply commonprefix_startswith_l.
  - intros [Hr [N [g [Hg [Ng P]]]]]. repeat split; auto.
    destruct (@combinations2_complete fields r g Hr Hg) as [H | H]; [congruence | |].
    + exists r, g. split; auto. now apply commonprefix_of_prefix.
    + exists g, r. split; auto.
      rewrite commonprefix_comm. now apply commonprefix_of_prefix.
Qed.

Lemma root_elements_sub fields r :
  In r (root_elements fields) -> In r fields.
Proof.
  unfold root_elements. rewrite set_of_In, filter_In. tauto.
Qed.

Lemma filter_only_parents_fields_value fields :
  value (filter_only_parents_fields fields)
  = replace_elements_with_roots fields (root_elements fields).
Proof.
  unfold filter_only_parents_fields, value, bind.
  destruct (negb _); reflexivity.
Qed.

Lemma filter_only_parents_fields_logs fields :
  logs (filter_only_parents_fields fields)
  = match root_elements fields with
    | [] => []
    | _ :: _ => [(WARNING, RootElementsFound (root_elements fields))]
    end.
Proof.
  unfold filter_only_parents_fields, logs, bind.
  destruct (root_elements fields); reflexivity.
Qed.

Lemma for_each_existing sch xs : forall res,
  for_each xs
    (fun res field =>
       if is_column_exist sch field then ret (res ++ [field])
       else bind (log_warning (FieldNotFound field)) (fun _ => ret res))
    res
  = (res ++ filter (is_column_exist sch) xs,
     map (fun f => (WARNING, FieldNotFound f))
         (filter (fun f => negb (is_column_exist sch f)) xs)).
Proof.
  induction xs as [|x t IH]; intros res; simpl.
  - now rewrite app_nil_r.
  - destruct (is_column_exist sch x); simpl; rewrite IH; simpl.
    + now rewrite <- app_assoc.
    + reflexivity.
Qed.

Lemma filter_only_existing_fields_value sch fields :
  value (filter_only_existing_fields sch fields)
  = filter (is_column_exist sch) (distinct fields).
Proof.
  unfold filter_only_existing_fields. now rewrite for_each_existing.
Qed.

Lemma filter_only_existing_fields_logs sch fields :
  logs (filter_only_existing_fields sch fields)
  = map (fun f => (WARNING, FieldNotFound f))
        (filter (fun f => negb (is_column_exist sch f)) (distinct fields)).
Proof.
  unfold filter_only_existing_fields. now rewrite for_each_existing.
Qed.

Lemma existing_In sch fields x :
  In x (value (filter_only_existing_fields sch fields)) <->
  In x fields /\ In x (flatten_schema sch).
Proof.
  rewrite filter_only_existing_fields_value, filter_In, distinct_In.
  unfold is_column_exist. now rewrite mem_In.
Qed.

Lemma existing_NoDup sch fields :
  NoDup (value (filter_only_existing_fields sch fields)).
Proof.
  rewrite filter_only_existing_fields_value.
  apply NoDup_filter, distinct_NoDup.
Qed.

Lemma is_field_need_to_be_dropped_true field parents :
  is_field_need_to_be_dropped field parents = true <->
  forall r, In r parents -> str_in r field = false.
Proof.
  induction parents as [|p t IH]; simpl.
  - split; [intros _ r [] | reflexivity].
  - destruct (str_in p field) eqn:E.
    + split; [discriminate|]. intros H.
      rewrite (H p (or_introl eq_refl)) in E. discriminate E.
    + rewrite IH. split.
      * intros H r [<- | Hr]; auto.
      * intros H r Hr. apply H. now right.
Qed.

End Roots.

(** ** Keep-roots and drop-set *)

Lemma value_bind {A B} (m : Logged A) (k : A -> Logged B) :
  value (bind m k) = value (k (value m)).
Proof. unfold value, bind. destruct m as [a l]. simpl. now destruct (k a). Qed.

Lemma logs_bind {A B} (m : Logged A) (k : A -> Logged B) :
  logs (bind m k) = logs m ++ logs (k (value m)).
Proof. unfold logs, value, bind. destruct m as [a l]. simpl. now destruct (k a). Qed.

Section DropSet.

Context {order : SetOrder}.

Variable self : WhitelistProcessor.
Variable df : DataFrame.

(** The requested paths that survive the existence filter. *)
Local Abbreviation existing :=
  (value (filter_only_existing_fields (schema df) (whitelist_columns self))).

Lemma whitelist_parent_fields_value :
  value (whitelist_parent_fields self df)
  = set_of (replace_elements_with_roots existing (root_elements existing)).
Proof.
  unfold whitelist_parent_fields.
  rewrite !value_bind, filter_only_parents_fields_value. reflexivity.
Qed.

Lemma whitelist_parent_fields_logs :
  logs (whitelist_parent_fields self df)
  = logs (filter_only_existing_fields (schema df) (whitelist_columns self))
    ++ logs (filter_only_parents_fields existing).
Proof.
  unfold whitelist_parent_fields.
  rewrite !logs_bind. simpl. now rewrite app_nil_r.
Qed.

Lemma find_fields_to_drop_value :
  value (find_fields_to_drop self df)
  = set_of (filter (fun field =>
                      is_field_need_to_be_dropped
                        field (value (whitelist_parent_fields self df)))
                   (flatten_schema (schema df))).
Proof. unfold find_fields_to_drop. now rewrite value_bind. Qed.

Lemma find_fields_to_drop_logs :
  logs (find_fields_to_drop self df) = logs (whitelist_parent_fields self df).
Proof.
  unfold find_fields_to_drop. rewrite logs_bind. simpl. apply app_nil_r.
Qed.

(** A requested path is a keep-root exactly when it exists in the schema
    and no root element other than itself occurs in it. *)
Lemma keep_root_In r :
  In r (value (whitelist_parent_fields self df)) <->
  In r existing /\
  (forall q, In q (root_elements existing) -> str_in q r = true -> q = r).
Proof.
  rewrite whitelist_parent_fields_value, set_of_In.
  apply replace_elements_with_roots_In.
  - apply existing_NoDup.
  - intros q. apply root_elements_sub.
Qed.

Lemma drop_set_In p :
  In p (value (find_fields_to_drop self df)) <->
  In p (flatten_schema (schema df)) /\
  (forall r, In r (value (whitelist_parent_fields self df)) ->
             str_in r p = false).
Proof.
  rewrite find_fields_to_drop_value, set_of_In, filter_In.
  now rewrite is_field_need_to_be_dropped_true.
Qed.

(** Below every root element there is one that contains no other. *)
Lemma minimal_root (roots : list string) : forall n s,
  String.length s <= n -> In s roots ->
  exists r, In r roots /\ str_in r s = true /\
            (forall q, In q roots -> str_in q r = true -> q = r).
Proof.
  induction n as [|n IH]; intros s Hlen Hs.
  - exists s. repeat split; auto using str_in_refl.
    intros q _ Hq. apply str_in_Substring in Hq as [pre [post E]].
    apply (f_equal String.length) in E. rewrite !append_length in E.
    destruct s; [|simpl in Hlen; lia].
    destruct q; [reflexivity | simpl in E; lia].
  - destruct (existsb (fun q => str_in q s && negb (String.eqb q s)) roots)
      eqn:E.
    + apply existsb_exists in E as [q [Hq E]].
      apply andb_true_iff in E as [E N].
      apply negb_true_iff, String.eqb_neq in N.
      assert (Hl : String.length q <= n).
      { pose proof E as E'.
        apply str_in_Substring in E' as [pre [post E']].
        assert (L := f_equal String.length E').
        rewrite !append_length in L.
        destruct pre as [|c pre]; [destruct post as [|c post]|].
        - simpl in E'. rewrite append_nil_r in E'. congruence.
        - simpl in L. lia.
        - simpl in L. lia. }
      destruct (IH q Hl Hq) as [r [Hr [Er Hmin]]].
      exists r. repeat split; auto. eapply str_in_trans; eauto.
    + exists s. repeat split; auto using str_in_refl.
      intros q Hq Eq. destruct (string_dec q s) as [|N]; auto.
      assert (X : existsb (fun q => str_in q s && negb (String.eqb q s)) roots
                  = true).
      { apply existsb_exists. exists q. split; auto.
        rewrite Eq. simpl. now apply negb_true_iff, String.eqb_neq. }
      congruence.
Qed.

(** Every path in which a root element occurs contains a keep-root. *)
Lemma root_protects s p :
  In s (root_elements existing) -> str_in s p = true ->
  exists r, In r (value (whitelist_parent_fields self df)) /\
            str_in r p = true.
Proof.
  intros Hs Hp.
  destruct (@minimal_root (root_elements existing) _ s (le_n _) Hs)
    as [r [Hr [Ers Hmin]]].
  exists r. split.
  - apply keep_root_In. split; auto. now apply root_elements_sub.
  - eapply str_in_trans; eauto.
Qed.

End DropSet.

(** * The drop-set *)

(** C3.  A flattened path is placed in the drop-set if and only if no
    keep-root occurs in it as a substring; the paths of the drop-set are
    flattened paths of the schema. *)
Theorem drop_set_iff_no_keep_root_substring
        (order : SetOrder) (self : WhitelistProcessor) (df : DataFrame)
        (p : string) :
  In p (value (find_fields_to_drop self df)) <->
  In p (flatten_schema (schema df)) /\
  (forall r, In r (value (whitelist_parent_fields self df)) ->
             ~ Substring r p).
Proof.
  rewrite drop_set_In. split; intros [Hp H]; split; auto; intros r Hr.
  - rewrite <- str_in_Substring, (H r Hr). discriminate.
  - specialize (H r Hr). rewrite <- str_in_Substring in H.
    now destruct (str_in r p).
Qed.

(** C2, as stated, fails: on the schema [{a: {b: int}, b: int}] with the
    whitelist [["b"]] the keep-root set is [{"b"}] and the drop-set is
    [{"a"}]; the flattened path ["a.b"] is not dropped, yet no keep-root is
    a prefix of it (nor is it a prefix of a keep-root), so the drop-set and
    the prefix-matched paths do not cover the flattened path set. *)
Lemma prefix_partition_counterexample :
  let self := {| whitelist_columns := ["b"] |} in
  In "a.b" (flatten_schema (schema df_a_b)) /\
  ~ In "a.b" (value (find_fields_to_drop self df_a_b)) /\
  ~ (exists r, In r (value (whitelist_parent_fields self df_a_b)) /\
               (Prefix r "a.b" \/ Prefix "a.b" r)).
Proof.
  cbv zeta. split; [|split].
  - vm_compute. auto.
  - vm_compute. intros [H | []]. discriminate H.
  - intros [r [Hr H]].
    assert (E : r = "b") by (vm_compute in Hr; destruct Hr as [E | []]; auto).
    subst r. rewrite <- !startswith_Prefix in H.
    destruct H as [H | H]; discriminate H.
Qed.

(** C2, amended.  The drop-set is disjoint from the keep-root set, and the
    drop-set together with the flattened paths that contain a keep-root as
    a substring is the whole flattened path set, without overlap. *)
Theorem drop_set_substring_partition
        (order : SetOrder) (self : WhitelistProcessor) (df : DataFrame) :
  let drop_set := value (find_fields_to_drop self df) in
  let keep_roots := value (whitelist_parent_fields self df) in
  let kept p := exists r, In r keep_roots /\ Substring r p in
  (forall p, In p drop_set -> ~ In p keep_roots) /\
  (forall p, In p (flatten_schema (schema df)) <->
             In p drop_set \/ (In p (flatten_schema (schema df)) /\ kept p)) /\
  (forall p, In p drop_set -> ~ kept p).
Proof.
  cbv zeta. split; [|split].
  - intros p Hp Hk. apply drop_set_In in Hp as [_ H].
    specialize (H p Hk). rewrite str_in_refl in H. discriminate H.
  - intros p. split.
    + intros Hp.
      destruct (is_field_need_to_be_dropped
                  p (value (whitelist_parent_fields self df))) eqn:E.
      * left. apply drop_set_In. split; auto.
        now apply is_field_need_to_be_dropped_true.
      * right. split; auto.
        assert (X : ~ forall r,
                     In r (value (whitelist_parent_fields self df)) ->
                     str_in r p = false).
        { rewrite <- is_field_need_to_be_dropped_true. congruence. }
        clear E.
        induction (value (whitelist_parent_fields self df)) as [|r t IH].
        -- elim X. intros r [].
        -- destruct (str_in r p) eqn:E.
           ++ exists r. split; [now left | now apply str_in_Substring].
           ++ destruct IH as [q [Hq Sq]].
              ** intros H. apply X. intros q [<- | Hq]; auto.
              ** exists q. split; [now right | exact Sq].
    + intros [Hp | [Hp _]]; auto. now apply drop_set_In in Hp.
  - intros p Hp [r [Hr S]]. apply drop_set_In in Hp as [_ H].
    apply str_in_Substring in S. rewrite (H r Hr) in S. discriminate S.
Qed.

(** ** Running the selector again *)




(** In every surviving requested path some keep-root occurs. *)
Lemma existing_has_keep_root
      (order : SetOrder) (self : WhitelistProcessor) (df : DataFrame) w :
  In w (value (filter_only_existing_fields
                 (schema df) (whitelist_columns self))) ->
  exists r, In r (value (whitelist_parent_fields self df)) /\
            str_in r w = true.
Proof.
  intros Hw.
  set (roots := root_elements
                  (value (filter_only_existing_fields
                            (schema df) (whitelist_columns self)))).
  destruct (existsb (fun q => str_in q w) roots) eqn:E.
  - apply existsb_exists in E as [q [Hq E]].
    now apply (root_protects self df q w).
  - exists w. split; [|apply str_in_refl].
    apply keep_root_In. split; auto. intros q Hq Eq.
    assert (X : existsb (fun q => str_in q w) roots = true)
      by (apply existsb_exists; eauto).
    congruence.
Qed.



(** * Root collapse *)

(** C4, as stated, fails: for the requested paths a, a.b and x.a the only
    discovered root is a; the path x.a does not have a as a prefix, so it
    is unrelated to the root in the prefix sense, yet it does not pass
    through: it is removed because a occurs inside it. *)
Lemma root_collapse_prefix_counterexample :
  let fields := ["a"; "a.b"; "x.a"] in
  root_elements fields = ["a"] /\
  In "x.a" fields /\
  ~ Prefix "a" "x.a" /\
  ~ In "x.a" (replace_elements_with_roots fields (root_elements fields)).
Proof.
  cbv zeta. split; [reflexivity | split; [simpl; auto | split]].
  - rewrite <- startswith_Prefix. discriminate.
  - vm_compute. intros [H | []]. discriminate H.
Qed.

(** C4, amended.  In the root-collapse replacement step, for every
    duplicate-free list of requested paths and every set of roots taken
    from it, in whatever order the roots are visited: each path in which a
    root other than itself occurs as a substring (in particular as a
    prefix) is removed; each root in which no other root occurs is kept
    exactly once; every path in which no root occurs passes through
    unchanged, in its original relative order; and one pass for one root
    puts the root at the position of the first path that contains it. *)
Theorem root_collapse_by_substring (fields roots : list string) :
  NoDup fields ->
  (forall r, In r roots -> In r fields) ->
  let result := replace_elements_with_roots fields roots in
  let rootless f := forallb (fun r => negb (str_in r f)) roots in
  (forall f r, In r roots -> r <> f -> Substring r f -> ~ In f result) /\
  (forall f r, In r roots -> r <> f -> Prefix r f -> ~ In f result) /\
  (forall r, In r roots ->
             (forall q, In q roots -> Substring q r -> q = r) ->
             count_occ string_dec result r = 1) /\
  filter rootless result = filter rootless fields /\
  (forall root pre f post,
      fields = pre ++ f :: post ->
      (forall g, In g pre -> ~ Substring root g) ->
      Substring root f ->
      replace_elements_with_root fields root
      = pre ++ root :: without root post).
Proof.
  intros ND Hroots result rootless.
  assert (Hsub : forall f r, In r roots -> r <> f -> Substring r f ->
                             ~ In f result).
  { intros f r Hr N S Hf.
    apply replace_elements_with_roots_In in Hf as [_ H]; auto.
    apply N, H; auto. now apply str_in_Substring. }
  split; [exact Hsub | split; [|split; [|split]]].
  - intros f r Hr N P. apply (Hsub f r Hr N).
    apply str_in_Substring, startswith_str_in, startswith_Prefix, P.
  - intros r Hr Hmin. apply NoDup_count_occ'.
    + now apply replace_elements_with_roots_NoDup.
    + apply replace_elements_with_roots_In; auto. split; auto.
      intros q Hq E. apply Hmin; auto. now apply str_in_Substring.
  - apply replace_elements_with_roots_filter.
    intros r x Hr E. unfold rootless.
    destruct (forallb _ roots) eqn:F; auto.
    rewrite forallb_forall in F. specialize (F r Hr).
    rewrite E in F. discriminate F.
  - intros root pre f post -> Hpre Hf. apply replace_first.
    + intros g Hg. specialize (Hpre g Hg).
      rewrite <- str_in_Substring in Hpre. now destruct (str_in root g).
    + now apply str_in_Substring.
Qed.

Lemma root_collapse_by_substring_witness :
  replace_elements_with_roots ["b.x"; "a.b"; "a"; "x.a"; "b"; "c"] ["b"; "a"]
  = ["b"; "a"; "c"] /\
  count_occ string_dec
    (replace_elements_with_roots
       ["b.x"; "a.b"; "a"; "x.a"; "b"; "c"] ["b"; "a"]) "a" = 1.
Proof.
  split; [reflexivity|].
  apply (@root_collapse_by_substring
           ["b.x"; "a.b"; "a"; "x.a"; "b"; "c"] ["b"; "a"]).
  - repeat constructor; simpl; intuition discriminate.
  - simpl. intuition.
  - simpl. auto.
  - intros q [<- | [<- | []]] S; auto.
    apply str_in_Substring in S. discriminate S.
Defined.

Lemma two_element_list (a b : string) (l : list string) :
  a <> b -> NoDup l -> (forall x, In x l <-> x = a \/ x = b) ->
  l = [a; b] \/ l = [b; a].
Proof.
  intros N ND H.
  assert (Ha : In a l) by (apply H; auto).
  assert (Hb : In b l) by (apply H; auto).
  destruct l as [|u [|v [|w t]]].
  - destruct Ha.
  - destruct Ha as [<- | []], Hb as [<- | []]. congruence.
  - assert (Hu : u = a \/ u = b) by (apply H; simpl; auto).
    assert (Hv : v = a \/ v = b) by (apply H; simpl; auto).
    apply NoDup_cons_iff in ND as [Nu _]. simpl in Nu.
    destruct Hu as [-> | ->], Hv as [-> | ->]; auto; tauto.
  - assert (Hu : u = a \/ u = b) by (apply H; simpl; auto).
    assert (Hv : v = a \/ v = b) by (apply H; simpl; auto).
    assert (Hw : w = a \/ w = b) by (apply H; simpl; auto).
    apply NoDup_cons_iff in ND as [Nu ND].
    apply NoDup_cons_iff in ND as [Nv _]. simpl in Nu, Nv.
    destruct Hu as [-> | ->], Hv as [-> | ->], Hw as [-> | ->]; tauto.
Qed.

(** A request made of the paths a.b and a.b.c only, both present in the
    schema, resolves to the single keep-root a.b with one root warning. *)
Lemma only_parent_and_child_requested
        (order : SetOrder) (df : DataFrame) (requested : list string) :
  In "a.b" requested ->
  In "a.b.c" requested ->
  (forall x, In x requested -> x = "a.b" \/ x = "a.b.c") ->
  In "a.b" (flatten_schema (schema df)) ->
  In "a.b.c" (flatten_schema (schema df)) ->
  let self := {| whitelist_columns := requested |} in
  value (whitelist_parent_fields self df) = ["a.b"] /\
  logs (whitelist_parent_fields self df)
    = [(WARNING, RootElementsFound ["a.b"])] /\
  In (WARNING, RootElementsFound ["a.b"]) (logs (find_fields_to_drop self df)).
Proof.
  intros Hp Hc Honly Sp Sc self.
  assert (Hlogs : logs (filter_only_existing_fields
                          (schema df) (whitelist_columns self)) = []).
  { rewrite filter_only_existing_fields_logs.
    rewrite (filter_ext_in _ (fun _ => false)), filter_false; auto.
    intros x Hx. apply (proj1 (distinct_In _ _)) in Hx.
    unfold is_column_exist.
    destruct (Honly x Hx) as [-> | ->];
      apply negb_false_iff, mem_In; assumption. }
  assert (R1 : root_elements ["a.b"; "a.b.c"] = ["a.b"]).
  { unfold root_elements, common_elements. simpl.
    rewrite set_of_singleton. simpl. apply set_of_singleton. }
  assert (R2 : root_elements ["a.b.c"; "a.b"] = ["a.b"]).
  { unfold root_elements, common_elements. simpl.
    rewrite set_of_singleton. simpl. apply set_of_singleton. }
  assert (Hex : value (filter_only_existing_fields
                         (schema df) (whitelist_columns self))
                = ["a.b"; "a.b.c"] \/
                value (filter_only_existing_fields
                         (schema df) (whitelist_columns self))
                = ["a.b.c"; "a.b"]).
  { apply two_element_list.
    - discriminate.
    - apply existing_NoDup.
    - intros x. rewrite existing_In. simpl. split.
      + intros [Hx _]. auto.
      + intros [-> | ->]; auto. }
  assert (Hval : value (whitelist_parent_fields self df) = ["a.b"] /\
                 logs (whitelist_parent_fields self df)
                 = [(WARNING, RootElementsFound ["a.b"])]).
  { rewrite whitelist_parent_fields_value, whitelist_parent_fields_logs.
    rewrite Hlogs, filter_only_parents_fields_logs.
    destruct Hex as [-> | ->]; rewrite ?R1, ?R2; simpl.
    all: rewrite replace_elements_with_root_loop; simpl.
    all: split; auto using set_of_singleton. }
  destruct Hval as [Hv Hl]. repeat split; auto.
  rewrite find_fields_to_drop_logs, Hl. now left.
Qed.

(** * Requested paths absent from the schema *)

Lemma distinct_from_filter (P : string -> bool) xs : forall seen seen',
  (forall x, P x = true -> (In x seen <-> In x seen')) ->
  distinct_from seen (filter P xs) = filter P (distinct_from seen' xs).
Proof.
  induction xs as [|x t IH]; intros seen seen' Hagree; simpl; auto.
  destruct (P x) eqn:Px; simpl.
  - assert (E : mem x seen = mem x seen').
    { apply eq_true_iff_eq. rewrite !mem_In. now apply Hagree. }
    rewrite E. destruct (mem x seen'); auto.
    simpl. rewrite Px. f_equal. apply IH.
    intros y Py. simpl. now rewrite (Hagree y Py).
  - destruct (mem x seen'); auto.
    simpl. rewrite Px. apply IH.
    intros y Py. simpl. rewrite (Hagree y Py). split; auto.
    intros [<- | H]; [congruence | exact H].
Qed.

(** C8.  Each requested path absent from the schema is logged as a
    warning and left out of the surviving paths; the computation returns
    normally, every requested path that is present survives, and what is
    computed afterwards is what the request without the absent paths
    gives. *)
Theorem absent_path_logged_and_skipped
        (order : SetOrder) (self : WhitelistProcessor) (df : DataFrame)
        (field : string) :
  In field (whitelist_columns self) ->
  ~ In field (flatten_schema (schema df)) ->
  let surviving :=
    filter_only_existing_fields (schema df) (whitelist_columns self) in
  let present :=
    filter (is_column_exist (schema df)) (whitelist_columns self) in
  In (WARNING, FieldNotFound field) (logs surviving) /\
  In (WARNING, FieldNotFound field) (logs (find_fields_to_drop self df)) /\
  ~ In field (value surviving) /\
  (forall g, In g (whitelist_columns self) ->
             In g (flatten_schema (schema df)) -> In g (value surviving)) /\
  value surviving = value (filter_only_existing_fields (schema df) present) /\
  value (find_fields_to_drop self df)
  = value (find_fields_to_drop {| whitelist_columns := present |} df).
Proof.
  intros Hreq Habs surviving present.
  assert (Hlog : In (WARNING, FieldNotFound field) (logs surviving)).
  { unfold surviving. rewrite filter_only_existing_fields_logs.
    apply (in_map (fun f => (WARNING, FieldNotFound f))).
    apply filter_In. split; [now apply distinct_In|].
    apply negb_true_iff, mem_false, Habs. }
  assert (Hsame : value surviving
                  = value (filter_only_existing_fields (schema df) present)).
  { unfold surviving, present.
    rewrite !filter_only_existing_fields_value. unfold distinct.
    rewrite (@distinct_from_filter _ _ [] []) by tauto.
    set (l := distinct_from [] (whitelist_columns self)).
    induction l as [|x t IH]; simpl; auto.
    destruct (is_column_exist (schema df) x) eqn:E; simpl;
      rewrite ?E; congruence. }
  repeat split; auto.
  - rewrite find_fields_to_drop_logs, whitelist_parent_fields_logs.
    apply in_or_app. now left.
  - unfold surviving. rewrite existing_In. tauto.
  - intros g Hg Sg. unfold surviving. rewrite existing_In. tauto.
  - rewrite !find_fields_to_drop_value, !whitelist_parent_fields_value.
    simpl whitelist_columns. fold surviving. now rewrite <- Hsame.
Qed.

Lemma absent_path_logged_and_skipped_witness :
  let self := {| whitelist_columns := ["zz"; "a.b"; "d"] |} in
  In (WARNING, FieldNotFound "zz") (logs (find_fields_to_drop self df_abcd)) /\
  value (find_fields_to_drop self df_abcd)
  = value (find_fields_to_drop {| whitelist_columns := ["a.b"; "d"] |} df_abcd).
Proof.
  cbv zeta.
  destruct (@absent_path_logged_and_skipped
              nodup_order {| whitelist_columns := ["zz"; "a.b"; "d"] |}
              df_abcd "zz")
    as [_ [H1 [_ [_ [_ H2]]]]].
  - simpl. auto.
  - simpl. intuition discriminate.
  - split; [exact H1 | exact H2].
Defined.

(** * Empty selection *)

Lemma set_eqb_true a b :
  set_eqb a b = true <-> (forall x, In x a <-> In x b).
Proof.
  unfold set_eqb. rewrite andb_true_iff, !forallb_forall. split.
  - intros [H1 H2] x. split; intros H.
    + apply mem_In, H1, H.
    + apply mem_In, H2, H.
  - intros H. split; intros x Hx; apply mem_In, H, Hx.
Qed.

Lemma set_diff_In a b x : In x (set_diff a b) <-> In x a /\ ~ In x b.
Proof.
  unfold set_diff. now rewrite filter_In, negb_true_iff, mem_false.
Qed.

Lemma no_fields_to_select_true
      (order : SetOrder) (self : WhitelistProcessor) (df : DataFrame) :
  no_fields_to_select self df = true <->
  (forall w, In w (whitelist_columns self) ->
             ~ In w (flatten_schema (schema df))).
Proof.
  unfold no_fields_to_select.
  destruct (set_eqb _ _) eqn:E.
  - rewrite set_eqb_true in E. split; auto. intros _ w Hw Hf.
    assert (X : In w (set_of (flatten_schema (schema df))))
      by now apply set_of_In.
    apply E, set_diff_In in X as [_ X]. apply X. now apply set_of_In.
  - split; [discriminate|]. intros H.
    assert (X : set_eqb
                  (set_diff (set_of (set_of (flatten_schema (schema df))))
                            (set_of (whitelist_columns self)))
                  (set_of (flatten_schema (schema df))) = true).
    { apply set_eqb_true. intros x.
      rewrite set_diff_In, !set_of_In. split; [tauto|].
      intros Hx. split; auto. intros Hw. exact (H x Hw Hx). }
    congruence.
Qed.

(** C6.  If no requested path exists in the schema (the empty whitelist
    included), [process] short-circuits: it returns [df.limit(0)], a frame
    with zero rows and the schema of [df], records no drop operation, and
    logs the "no fields to select" warning only. *)
Theorem no_requested_path_short_circuits
        (order : SetOrder) (self : WhitelistProcessor) (df : DataFrame) :
  (forall w, In w (whitelist_columns self) ->
             ~ In w (flatten_schema (schema df))) ->
  value (process self df) = limit df 0 /\
  rows (value (process self df)) = 0 /\
  schema (value (process self df)) = schema df /\
  plan (value (process self df)) = plan df ++ [OpLimit 0] /\
  logs (process self df)
  = [(WARNING, NoFieldsToSelect (whitelist_columns self)
                                (flatten_schema (schema df)))].
Proof.
  intros H. apply (proj2 (no_fields_to_select_true order self df)) in H.
  unfold process. rewrite H. repeat split.
Qed.

Lemma no_requested_path_short_circuits_witness :
  (value (process {| whitelist_columns := ["zz"; "b"] |} df_abcd)
   = limit df_abcd 0) /\
  (value (process {| whitelist_columns := [] |} df_abcd) = limit df_abcd 0).
Proof.
  split.
  - apply (@no_requested_path_short_circuits
             nodup_order {| whitelist_columns := ["zz"; "b"] |} df_abcd).
    simpl. intuition congruence.
  - apply (@no_requested_path_short_circuits
             nodup_order {| whitelist_columns := [] |} df_abcd).
    simpl. intuition.
Defined.

(** * Drop execution *)

Lemma plan_drops fs : forall df,
  plan (fold_left drop fs df) = plan df ++ map OpDrop fs.
Proof.
  induction fs as [|f t IH]; intros df; simpl.
  - now rewrite app_nil_r.
  - rewrite IH. simpl. now rewrite <- app_assoc.
Qed.

Lemma bind_ext {A B} (m : Logged A) (k1 k2 : A -> Logged B) :
  (forall a, k1 a = k2 a) -> bind m k1 = bind m k2.
Proof. intros H. unfold bind. destruct m as [a l]. now rewrite H. Qed.

(** The loop body of [drop_fields] only looks at the index modulo ten. *)
Lemma drop_loop_shift fs : forall k n df,
  for_each (combine (seq (k + 10) n) fs) drop_fields_body df
  = for_each (combine (seq k n) fs) drop_fields_body df.
Proof.
  induction fs as [|f t IH]; intros k n df.
  - destruct n; reflexivity.
  - destruct n as [|n]; [reflexivity|].
    cbn [seq combine for_each].
    assert (E : drop_fields_body df (k + 10, f) = drop_fields_body df (k, f)).
    { unfold drop_fields_body, NUMBER_OF_ITERATIONS_TO_FORCE_CATALYST_FLUSH.
      replace (k + 10 + 1) with (k + 1 + 1 * 10) by lia.
      now rewrite Nat.Div0.mod_add. }
    rewrite E. apply bind_ext. intros a.
    change (S (k + 10)) with (S k + 10). apply IH.
Qed.

Lemma for_each_app {A S} (xs ys : list A) (body : S -> A -> Logged S) :
  forall s,
  for_each (xs ++ ys) body s = bind (for_each xs body s) (for_each ys body).
Proof.
  induction xs as [|x t IH]; intros s; simpl.
  - unfold bind, ret. now destruct (for_each ys body s).
  - unfold bind. destruct (body s x) as [s' l]. rewrite IH. unfold bind.
    destruct (for_each t body s') as [s'' l'].
    destruct (for_each ys body s'') as [s3 l3]. now rewrite app_assoc.
Qed.

(** C7.  [drop_fields] forces a materialization after each batch of
    exactly ten drops and then goes on with the rest as a fresh run of the
    same loop, its count starting again from zero; fewer than ten drops are
    never followed by one.  The count starts from zero whatever was
    recorded on the frame before the call. *)
Theorem drop_fields_flushes_every_ten
        (df : DataFrame) (batch rest : list string) :
  List.length batch = NUMBER_OF_ITERATIONS_TO_FORCE_CATALYST_FLUSH ->
  drop_fields df (batch ++ rest)
  = bind (log_debug TimeToForceCalculation)
         (fun _ => drop_fields (force_calculation (fold_left drop batch df))
                               rest) /\
  (forall fewer,
      List.length fewer < NUMBER_OF_ITERATIONS_TO_FORCE_CATALYST_FLUSH ->
      forall df', drop_fields df' fewer = (fold_left drop fewer df', [])) /\
  (List.length rest < NUMBER_OF_ITERATIONS_TO_FORCE_CATALYST_FLUSH ->
   plan (value (drop_fields df (batch ++ rest)))
   = plan df ++ map OpDrop batch ++ [OpCache] ++ map OpDrop rest).
Proof.
  intros Hlen.
  assert (Hfew : forall fewer,
             List.length fewer < NUMBER_OF_ITERATIONS_TO_FORCE_CATALYST_FLUSH ->
             forall df', drop_fields df' fewer = (fold_left drop fewer df', [])).
  { unfold NUMBER_OF_ITERATIONS_TO_FORCE_CATALYST_FLUSH.
    intros fewer Hf df'.
    do 10 (destruct fewer as [|? fewer]; [reflexivity|]).
    simpl in Hf. lia. }
  assert (Hbatch : drop_fields df (batch ++ rest)
          = bind (log_debug TimeToForceCalculation)
              (fun _ => drop_fields
                          (force_calculation (fold_left drop batch df)) rest)).
  { unfold NUMBER_OF_ITERATIONS_TO_FORCE_CATALYST_FLUSH in Hlen.
    do 10 (destruct batch as [|? batch]; [discriminate Hlen|]).
    destruct batch; [clear Hlen | discriminate Hlen].
    unfold drop_fields, enumerate. rewrite length_app.
    match goal with
    | |- for_each (combine _ (?b ++ rest)) _ _ = _ =>
        replace (combine (seq 0 (List.length b + List.length rest))
                         (b ++ rest))
          with (combine (seq 0 10) b
                ++ combine (seq (0 + 10) (List.length rest)) rest)
          by reflexivity;
        rewrite for_each_app;
        replace (for_each (combine (seq 0 10) b) drop_fields_body df)
          with (force_calculation (fold_left drop b df),
                [(DEBUG, TimeToForceCalculation)])
          by reflexivity
    end.
    unfold bind, log_debug. rewrite drop_loop_shift.
    now destruct (for_each _ _ _). }
  split; [exact Hbatch | split; [exact Hfew|]].
  intros Hrest.
  rewrite Hbatch, value_bind, (Hfew rest Hrest). simpl value.
  rewrite plan_drops. simpl plan. rewrite plan_drops.
  now rewrite <- !app_assoc.
Qed.

Lemma drop_fields_flushes_every_ten_witness :
  plan (value (drop_fields df_seven (ten_fields ++ ["f11"; "f12"])))
  = plan df_seven ++ map OpDrop ten_fields ++ [OpCache]
    ++ map OpDrop ["f11"; "f12"].
Proof.
  apply (@drop_fields_flushes_every_ten df_seven ten_fields ["f11"; "f12"]).
  - reflexivity.
  - unfold NUMBER_OF_ITERATIONS_TO_FORCE_CATALYST_FLUSH. simpl. lia.
Defined.

(** * Textual prefixes as roots *)

(** C10.  If a surviving requested path is a non-empty, proper
    character-level prefix of another one (whether or not it is its
    path-segment ancestor), root detection takes the shorter path for a
    root: it is among the root elements reported in the warning, the longer
    path is not a keep-root, and no flattened path in which the shorter
    path occurs as a substring is dropped. *)
Theorem textual_prefix_is_a_root
        (order : SetOrder) (self : WhitelistProcessor) (df : DataFrame)
        (shorter longer : string) :
  In shorter (whitelist_columns self) ->
  In longer (whitelist_columns self) ->
  In shorter (flatten_schema (schema df)) ->
  In longer (flatten_schema (schema df)) ->
  shorter <> "" ->
  shorter <> longer ->
  Prefix shorter longer ->
  let surviving :=
    value (filter_only_existing_fields (schema df) (whitelist_columns self)) in
  In shorter (root_elements surviving) /\
  In (WARNING, RootElementsFound (root_elements surviving))
     (logs (find_fields_to_drop self df)) /\
  ~ In longer (value (whitelist_parent_fields self df)) /\
  (forall p, In p (flatten_schema (schema df)) ->
             Substring shorter p ->
             ~ In p (value (find_fields_to_drop self df))).
Proof.
  intros Ws Wl Fs Fl Ne Nl P surviving.
  apply startswith_Prefix in P.
  assert (Hroot : In shorter (root_elements surviving)).
  { apply root_elements_In; [apply existing_NoDup|].
    split; [apply existing_In; auto | split; auto].
    exists longer. repeat split; auto. apply existing_In; auto. }
  split; [exact Hroot | split; [|split]].
  - rewrite find_fields_to_drop_logs, whitelist_parent_fields_logs.
    apply in_or_app. right. rewrite filter_only_parents_fields_logs.
    fold surviving. destruct (root_elements surviving); [destruct Hroot|].
    now left.
  - intros Hk. apply keep_root_In in Hk as [_ Hk].
    apply Nl, (Hk shorter Hroot), startswith_str_in, P.
  - intros p Fp Sp Hp. apply str_in_Substring in Sp.
    destruct (root_protects self df _ _ Hroot Sp) as [r [Hr Er]].
    apply drop_set_In in Hp as [_ Hp].
    rewrite (Hp r Hr) in Er. discriminate Er.
Qed.

Lemma textual_prefix_is_a_root_witness :
  let self := {| whitelist_columns := ["ab"; "abc"] |} in
  In "ab" (root_elements
             (value (filter_only_existing_fields
                       (schema df_flat) (whitelist_columns self)))) /\
  ~ In "abc" (value (whitelist_parent_fields self df_flat)) /\
  ~ In "xab" (value (find_fields_to_drop self df_flat)).
Proof.
  cbv zeta.
  destruct (@textual_prefix_is_a_root
              nodup_order {| whitelist_columns := ["ab"; "abc"] |} df_flat
              "ab" "abc")
    as [H1 [_ [H2 H3]]].
  - simpl. auto.
  - simpl. auto.
  - simpl. auto.
  - simpl. auto.
  - discriminate.
  - discriminate.
  - exists "c". reflexivity.
  - split; [exact H1 | split; [exact H2|]].
    apply H3.
    + simpl. auto.
    + exists "x", "". reflexivity.
Defined.

(** * Further properties of root detection and collapse *)

Section Parents.

Context {order : SetOrder}.

Lemma parents_In fields x :
  NoDup fields ->
  In x (value (filter_only_parents_fields fields)) <->
  In x fields /\
  (forall q, In q (root_elements fields) -> str_in q x = true -> q = x).
Proof.
  intros ND. rewrite filter_only_parents_fields_value.
  apply replace_elements_with_roots_In; auto.
  intros r. apply root_elements_sub.
Qed.

Lemma parents_NoDup fields :
  NoDup fields -> NoDup (value (filter_only_parents_fields fields)).
Proof.
  intros ND. rewrite filter_only_parents_fields_value.
  apply replace_elements_with_roots_NoDup; auto.
  intros r. apply root_elements_sub.
Qed.

Lemma parents_prefix_free fields x y :
  NoDup fields ->
  In x (value (filter_only_parents_fields fields)) ->
  In y (value (filter_only_parents_fields fields)) ->
  x <> "" -> startswith x y = true -> x = y.
Proof.
  intros ND Hx Hy Ne P.
  apply parents_In in Hx as [Fx _]; auto.
  apply parents_In in Hy as [Fy Hy]; auto.
  destruct (string_dec x y) as [|N]; auto.
  apply Hy; [|now apply startswith_str_in].
  apply root_elements_In; auto. split; auto. split; auto.
  exists y. auto.
Qed.

Lemma parents_cover fields f :
  NoDup fields -> In f fields ->
  exists r, In r (value (filter_only_parents_fields fields)) /\
            str_in r f = true.
Proof.
  intros ND Hf.
  destruct (existsb (fun q => str_in q f) (root_elements fields)) eqn:E.
  - apply existsb_exists in E as [q [Hq E]].
    destruct (@minimal_root (root_elements fields) _ q (le_n _) Hq)
      as [r [Hr [Erq Hmin]]].
    exists r. split; [|eapply str_in_trans; eauto].
    apply parents_In; auto. split; auto. now apply root_elements_sub.
  - exists f. split; [|apply str_in_refl].
    apply parents_In; auto. split; auto. intros q Hq Eq.
    assert (X : existsb (fun q => str_in q f) (root_elements fields) = true)
      by (apply existsb_exists; eauto).
    congruence.
Qed.

Lemma no_roots_unchanged fields :
  root_elements fields = [] ->
  filter_only_parents_fields fields = (fields, []).
Proof.
  intros E. unfold filter_only_parents_fields. rewrite E. reflexivity.
Qed.

Lemma empty_when_no_member (l : list string) :
  (forall x, ~ In x l) -> l = [].
Proof.
  destruct l as [|a t]; auto. intros H. elim (H a). now left.
Qed.

End Parents.

(** X1.  Root detection: among duplicate-free requested paths, a path is
    reported as a root element exactly when it is non-empty and a proper
    textual prefix of another requested path. *)
Theorem root_element_iff_proper_prefix
        (order : SetOrder) (fields : list string) (r : string) :
  NoDup fields ->
  In r (root_elements fields) <->
  In r fields /\ r <> "" /\
  exists g, In g fields /\ g <> r /\ Prefix r g.
Proof.
  intros ND. rewrite root_elements_In by exact ND.
  split; intros [Hr [Ne [g [Hg [N P]]]]]; repeat split; auto;
    exists g; repeat split; auto; now apply startswith_Prefix.
Qed.

Lemma root_element_iff_proper_prefix_witness :
  In "a.b" (root_elements ["x"; "a.b.c"; "a.b"; "a.bc"]) /\
  ~ In "a.b.c" (root_elements ["x"; "a.b.c"; "a.b"; "a.bc"]).
Proof.
  assert (ND : NoDup ["x"; "a.b.c"; "a.b"; "a.bc"]).
  { repeat constructor; simpl; intuition discriminate. }
  split.
  - apply (proj2 (@root_element_iff_proper_prefix nodup_order _ "a.b" ND)).
    split; [simpl; auto | split; [discriminate|]].
    exists "a.bc". split; [simpl; auto | split; [discriminate|]].
    exists "c". reflexivity.
  - intros H.
    apply (proj1 (@root_element_iff_proper_prefix nodup_order _ _ ND)) in H.
    destruct H as [_ [_ [g [Hg [N P]]]]].
    apply startswith_Prefix in P.
    simpl in Hg. destruct Hg as [<- | [<- | [<- | [<- | []]]]];
      try discriminate P. now apply N.
Defined.

(** X2.  When no requested path is a non-empty proper textual prefix of
    another, [filter_only_parents_fields] returns the list as it is and
    logs nothing; and it logs the root warning whenever such a pair
    exists. *)
Theorem no_prefix_pair_no_collapse
        (order : SetOrder) (fields : list string) :
  NoDup fields ->
  let prefix_pair :=
    exists x g, In x fields /\ In g fields /\
                x <> "" /\ x <> g /\ Prefix x g in
  (~ prefix_pair -> filter_only_parents_fields fields = (fields, [])) /\
  (prefix_pair ->
   logs (filter_only_parents_fields fields)
   = [(WARNING, RootElementsFound (root_elements fields))]).
Proof.
  intros ND prefix_pair. split.
  - intros Hno. apply no_roots_unchanged, empty_when_no_member.
    intros r Hr. apply root_elements_In in Hr as [Hr [Ne [g [Hg [N P]]]]]; auto.
    apply Hno. exists r, g. repeat split; auto. now apply startswith_Prefix.
  - intros [x [g [Hx [Hg [Ne [N P]]]]]].
    rewrite filter_only_parents_fields_logs.
    assert (Hr : In x (root_elements fields)).
    { apply root_elements_In; auto. repeat split; auto.
      exists g. repeat split; auto. now apply startswith_Prefix. }
    destruct (root_elements fields); [destruct Hr | reflexivity].
Qed.

Lemma no_prefix_pair_no_collapse_witness :
  filter_only_parents_fields ["b.a"; "a"; "c.d"] = (["b.a"; "a"; "c.d"], []) /\
  logs (filter_only_parents_fields ["a.b"; "a"])
  = [(WARNING, RootElementsFound (root_elements ["a.b"; "a"]))].
Proof.
  split.
  - apply (@no_prefix_pair_no_collapse nodup_order ["b.a"; "a"; "c.d"]).
    + repeat constructor; simpl; intuition discriminate.
    + intros [x [g [Hx [Hg [Ne [N P]]]]]]. apply startswith_Prefix in P.
      simpl in Hx, Hg.
      destruct Hx as [<- | [<- | [<- | []]]];
        destruct Hg as [<- | [<- | [<- | []]]];
        try discriminate P; now apply N.
  - apply (@no_prefix_pair_no_collapse nodup_order ["a.b"; "a"]).
    + repeat constructor; simpl; intuition discriminate.
    + exists "a", "a.b". simpl. repeat split; auto; try discriminate.
      exists ".b". reflexivity.
Defined.

(** X3.  The list returned by [filter_only_parents_fields] for
    duplicate-free requested paths is duplicate-free, holds requested
    paths only, never holds a non-empty path together with a textual
    extension of it, and covers the request: in every requested path some
    returned path occurs as a substring. *)
Theorem parents_are_a_prefix_free_cover
        (order : SetOrder) (fields : list string) :
  NoDup fields ->
  let parents := value (filter_only_parents_fields fields) in
  NoDup parents /\
  (forall x, In x parents -> In x fields) /\
  (forall x y, In x parents -> In y parents ->
               x <> "" -> Prefix x y -> x = y) /\
  (forall f, In f fields -> exists r, In r parents /\ Substring r f).
Proof.
  intros ND parents. split; [|split; [|split]].
  - now apply parents_NoDup.
  - intros x Hx. now apply parents_In in Hx as [Hx _].
  - intros x y Hx Hy Ne P. apply (@parents_prefix_free order fields); auto.
    now apply startswith_Prefix.
  - intros f Hf. destruct (@parents_cover order fields f ND Hf) as [r [Hr E]].
    exists r. split; auto. now apply str_in_Substring.
Qed.

Lemma parents_are_a_prefix_free_cover_witness :
  let parents :=
    value (filter_only_parents_fields ["a.b.c"; "x"; "a.b"; "a"; "xy"]) in
  NoDup parents /\
  (exists r, In r parents /\ Substring r "a.b.c").
Proof.
  cbv zeta.
  destruct (@parents_are_a_prefix_free_cover
              nodup_order ["a.b.c"; "x"; "a.b"; "a"; "xy"])
    as [H1 [_ [_ H4]]].
  - repeat constructor; simpl; intuition discriminate.
  - split; [exact H1 | apply H4; simpl; auto].
Defined.

(** X4.  [filter_only_parents_fields] is idempotent on duplicate-free
    input: run on its own result it returns that result unchanged and logs
    no warning. *)
Theorem filter_only_parents_fields_idempotent
        (order : SetOrder) (fields : list string) :
  NoDup fields ->
  let parents := value (filter_only_parents_fields fields) in
  filter_only_parents_fields parents = (parents, []).
Proof.
  intros ND parents. apply no_roots_unchanged, empty_when_no_member.
  intros r Hr.
  apply root_elements_In in Hr as [Hr [Ne [g [Hg [N P]]]]];
    [|now apply parents_NoDup].
  apply N. symmetry. now apply (@parents_prefix_free order fields).
Qed.

Lemma filter_only_parents_fields_idempotent_witness :
  filter_only_parents_fields
    (value (filter_only_parents_fields ["a.b.c"; "x"; "a.b"; "a"; "xy"]))
  = (value (filter_only_parents_fields ["a.b.c"; "x"; "a.b"; "a"; "xy"]), []).
Proof.
  apply (@filter_only_parents_fields_idempotent
           nodup_order ["a.b.c"; "x"; "a.b"; "a"; "xy"]).
  repeat constructor; simpl; intuition discriminate.
Defined.

(** X5.  One pass of [__replace_elements_with_root] never lengthens the
    list, leaves no path containing the root other than the root itself,
    and is idempotent: a second pass for the same root changes nothing. *)
Theorem replace_elements_with_root_pass (fields : list string) (root : string) :
  List.length (replace_elements_with_root fields root) <= List.length fields /\
  (forall f, In f (replace_elements_with_root fields root) ->
             Substring root f -> f = root) /\
  replace_elements_with_root (replace_elements_with_root fields root) root
  = replace_elements_with_root fields root.
Proof.
  assert (Hw : forall l, without root (without root l) = without root l).
  { intros l. unfold without. induction l as [|x t IH]; simpl; auto.
    destruct (str_in root x) eqn:E; simpl; rewrite ?E; simpl; congruence. }
  split; [|split].
  - destruct (first_containing root fields)
      as [H | [pre [f [post [-> [Hpre Hf]]]]]].
    + rewrite replace_none by exact H. lia.
    + rewrite replace_first by assumption.
      rewrite !length_app. simpl.
      pose proof (filter_length_le (fun f => negb (str_in root f)) post) as L.
      unfold without. lia.
  - intros f Hf S. apply str_in_Substring in S.
    apply replace_In in Hf as [[_ E] | [-> _]]; congruence.
  - destruct (first_containing root fields)
      as [H | [pre [f [post [-> [Hpre Hf]]]]]].
    + now rewrite !(@replace_none root fields H).
    + rewrite replace_first by assumption.
      rewrite replace_first; auto using str_in_refl. now rewrite Hw.
Qed.

(** * Further properties of the drop test and of drop execution *)

(** X6.  The answer of [is_field_need_to_be_dropped] depends only on which
    parent fields are in the set, not on the order in which the loop meets
    them nor on repetitions, although the loop returns at the first parent
    that occurs in the field. *)
Theorem is_field_need_to_be_dropped_set_only
        (field : string) (parents parents' : list string) :
  (forall r, In r parents <-> In r parents') ->
  is_field_need_to_be_dropped field parents
  = is_field_need_to_be_dropped field parents'.
Proof.
  intros H. apply eq_true_iff_eq.
  rewrite !is_field_need_to_be_dropped_true.
  split; intros A r Hr; apply A, H, Hr.
Qed.

Lemma is_field_need_to_be_dropped_set_only_witness :
  is_field_need_to_be_dropped "a.b.c" ["x"; "a.b"; "b.c"]
  = is_field_need_to_be_dropped "a.b.c" ["b.c"; "x"; "x"; "a.b"].
Proof.
  apply is_field_need_to_be_dropped_set_only.
  intros r. simpl. intuition.
Defined.

Lemma div10_succ k :
  (k + 1) / 10 = k / 10 + (if Nat.eqb ((k + 1) mod 10) 0 then 1 else 0).
Proof.
  pose proof (Nat.div_mod_eq k 10) as E1.
  pose proof (Nat.div_mod_eq (k + 1) 10) as E2.
  pose proof (Nat.mod_upper_bound k 10) as B1.
  pose proof (Nat.mod_upper_bound (k + 1) 10) as B2.
  destruct (Nat.eqb_spec ((k + 1) mod 10) 0); lia.
Qed.

Lemma drop_fields_body_at df k f :
  drop_fields_body df (k, f)
  = if Nat.eqb ((k + 1) mod 10) 0
    then (force_calculation (drop df f), [(DEBUG, TimeToForceCalculation)])
    else (drop df f, []).
Proof. reflexivity. Qed.

(** The loop of [drop_fields] started at index [k]. *)
Lemma drop_loop_from fs : forall k df,
  let r := for_each (combine (seq k (List.length fs)) fs)
                    drop_fields_body df in
  rows (value r) = rows df /\
  List.length (logs r) + k / 10 = (k + List.length fs) / 10 /\
  exists ops,
    plan (value r) = plan df ++ ops /\
    filter is_drop_op ops = map OpDrop fs /\
    List.length (filter is_cache_op ops) + k / 10
    = (k + List.length fs) / 10 /\
    filter is_limit_op ops = [].
Proof.
  induction fs as [|f t IH]; intros k df; cbv zeta.
  - simpl. rewrite Nat.add_0_r. repeat split; auto.
    exists []. now rewrite app_nil_r.
  - cbn [List.length seq combine for_each].
    pose proof (div10_succ k) as D.
    replace (k + S (List.length t)) with (S k + List.length t) by lia.
    rewrite drop_fields_body_at.
    destruct (Nat.eqb ((k + 1) mod 10) 0).
    + specialize (IH (S k) (force_calculation (drop df f))).
      cbv zeta in IH. destruct IH as [R [L [ops [P [Fd [Fc Fl]]]]]].
      rewrite value_bind, logs_bind. cbn [value logs fst snd].
      replace (S k) with (k + 1) in * by lia.
      split; [exact R | split].
      * cbn [List.length app]. lia.
      * exists (OpDrop f :: OpCache :: ops). rewrite P.
        cbn [force_calculation cache drop plan].
        rewrite <- !app_assoc. cbn [app filter is_drop_op is_cache_op
                                     is_limit_op map List.length].
        rewrite Fd, Fl. repeat split; auto. lia.
    + specialize (IH (S k) (drop df f)).
      cbv zeta in IH. destruct IH as [R [L [ops [P [Fd [Fc Fl]]]]]].
      rewrite value_bind, logs_bind. cbn [value logs fst snd].
      replace (S k) with (k + 1) in * by lia.
      split; [exact R | split].
      * cbn [List.length app]. lia.
      * exists (OpDrop f :: ops). rewrite P.
        cbn [drop plan].
        rewrite <- !app_assoc. cbn [app filter is_drop_op is_cache_op
                                     is_limit_op map List.length].
        rewrite Fd, Fl. repeat split; auto. lia.
Qed.

(** X7.  [drop_fields] on [n] fields keeps the row count, records the [n]
    drops in the iteration order of the set, records and logs exactly
    [n / 10] forced materializations, and records no other operation. *)
Theorem drop_fields_effect (df : DataFrame) (fields_to_drop : list string) :
  let out := drop_fields df fields_to_drop in
  let n := List.length fields_to_drop in
  rows (value out) = rows df /\
  List.length (logs out) = n / NUMBER_OF_ITERATIONS_TO_FORCE_CATALYST_FLUSH /\
  exists ops,
    plan (value out) = plan df ++ ops /\
    filter is_drop_op ops = map OpDrop fields_to_drop /\
    List.length (filter is_cache_op ops)
    = n / NUMBER_OF_ITERATIONS_TO_FORCE_CATALYST_FLUSH /\
    List.length ops = n + n / NUMBER_OF_ITERATIONS_TO_FORCE_CATALYST_FLUSH.
Proof.
  cbv zeta. unfold drop_fields, enumerate,
    NUMBER_OF_ITERATIONS_TO_FORCE_CATALYST_FLUSH.
  destruct (drop_loop_from fields_to_drop 0 df)
    as [R [L [ops [P [Fd [Fc Fl]]]]]].
  simpl in L, Fc. rewrite Nat.add_0_r in L, Fc.
  split; [exact R | split; [exact L|]].
  exists ops. repeat split; auto.
  assert (Hlen : forall l,
             List.length l
             = List.length (filter is_drop_op l)
               + List.length (filter is_cache_op l)
               + List.length (filter is_limit_op l)).
  { induction l as [|[] l IHl]; simpl; lia. }
  rewrite (Hlen ops), Fd, Fc, Fl, length_map. simpl. lia.
Qed.

(** * Further properties of the processor *)

Section Selecting.

Context {order : SetOrder}.

Variable self : WhitelistProcessor.
Variable df : DataFrame.

Lemma no_fields_to_select_false :
  no_fields_to_select self df = false <->
  exists w, In w (whitelist_columns self) /\
            In w (flatten_schema (schema df)).
Proof.
  split.
  - intros E.
    destruct (existsb (fun w => mem w (flatten_schema (schema df)))
                      (whitelist_columns self)) eqn:X.
    + apply existsb_exists in X as [w [Hw M]]. exists w.
      split; auto. now apply mem_In.
    + assert (T : no_fields_to_select self df = true).
      { apply (proj2 (no_fields_to_select_true order self df)).
        intros w Hw Fw.
        assert (Y : existsb (fun w => mem w (flatten_schema (schema df)))
                            (whitelist_columns self) = true).
        { apply existsb_exists. exists w. split; auto. now apply mem_In. }
        congruence. }
      congruence.
  - intros [w [Hw Fw]].
    destruct (no_fields_to_select self df) eqn:E; auto.
    elim (proj1 (no_fields_to_select_true order self df) E w Hw Fw).
Qed.

Lemma process_selecting :
  no_fields_to_select self df = false ->
  process self df
  = bind (find_fields_to_drop self df)
         (fun fields_to_drop =>
            bind (log_debug (FieldsToDrop fields_to_drop))
                 (fun _ => drop_fields df fields_to_drop)).
Proof. intros E. unfold process. now rewrite E. Qed.

(** A flattened path is dropped exactly when no requested path that is
    present in the schema occurs in it. *)
Lemma drop_set_by_requested p :
  In p (value (find_fields_to_drop self df)) <->
  In p (flatten_schema (schema df)) /\
  (forall w, In w (whitelist_columns self) ->
             In w (flatten_schema (schema df)) -> str_in w p = false).
Proof.
  rewrite drop_set_In. split; intros [Fp H]; split; auto.
  - intros w Hw Fw.
    destruct (@existing_has_keep_root order self df w) as [r [Hr E]].
    { apply existing_In. auto. }
    destruct (str_in w p) eqn:Ew; auto.
    rewrite <- (H r Hr). symmetry. eapply str_in_trans; eauto.
  - intros r Hr. apply keep_root_In in Hr as [Hr _].
    apply existing_In in Hr as [Hw Fw]. auto.
Qed.

End Selecting.

(** X8.  When some requested path is among the flattened paths of the
    schema, [process] does not cut the frame: the row count is kept, no
    limit is recorded, and the drops recorded are exactly those of the
    computed drop-set, in its iteration order. *)
Theorem process_drops_the_drop_set
        (order : SetOrder) (self : WhitelistProcessor) (df : DataFrame)
        (w : string) :
  In w (whitelist_columns self) ->
  In w (flatten_schema (schema df)) ->
  rows (value (process self df)) = rows df /\
  exists ops,
    plan (value (process self df)) = plan df ++ ops /\
    filter is_drop_op ops
    = map OpDrop (value (find_fields_to_drop self df)) /\
    (forall n, ~ In (OpLimit n) ops).
Proof.
  intros Hw Fw.
  assert (E : no_fields_to_select self df = false)
    by (apply no_fields_to_select_false; eauto).
  rewrite (process_selecting self df E), !value_bind.
  cbn [log_debug value fst].
  destruct (drop_loop_from (value (find_fields_to_drop self df)) 0 df)
    as [R [_ [ops [P [Fd [_ Fl]]]]]].
  split; [exact R|]. exists ops. repeat split; auto.
  intros n Hn.
  assert (X : In (OpLimit n) (filter is_limit_op ops))
    by (apply filter_In; auto).
  rewrite Fl in X. destruct X.
Qed.

Lemma process_drops_the_drop_set_witness :
  let self := {| whitelist_columns := ["zz"; "a"] |} in
  rows (value (process self df_abcd)) = rows df_abcd /\
  exists ops,
    plan (value (process self df_abcd)) = plan df_abcd ++ ops /\
    filter is_drop_op ops
    = map OpDrop (value (find_fields_to_drop self df_abcd)) /\
    (forall n, ~ In (OpLimit n) ops).
Proof.
  apply (@process_drops_the_drop_set
           nodup_order {| whitelist_columns := ["zz"; "a"] |} df_abcd "a");
    simpl; auto.
Defined.

(** X9.  [process] returns the zero-row frame [df.limit(0)] exactly when no
    requested path is among the flattened paths of the schema. *)
Theorem process_limits_iff_nothing_requested_exists
        (order : SetOrder) (self : WhitelistProcessor) (df : DataFrame) :
  value (process self df) = limit df 0 <->
  (forall w, In w (whitelist_columns self) ->
             ~ In w (flatten_schema (schema df))).
Proof.
  split.
  - intros E w Hw Fw.
    assert (N : no_fields_to_select self df = false)
      by (apply no_fields_to_select_false; eauto).
    rewrite (process_selecting self df N), !value_bind in E.
    cbn [log_debug value fst] in E.
    destruct (drop_loop_from (value (find_fields_to_drop self df)) 0 df)
      as [_ [_ [ops [P [_ [_ Fl]]]]]].
    cbv zeta in P. unfold drop_fields, enumerate in E.
    rewrite E in P. cbn [limit plan] in P.
    apply app_inv_head in P. subst ops. discriminate Fl.
  - intros H. apply (proj2 (no_fields_to_select_true order self df)) in H.
    unfold process. now rewrite H.
Qed.

(** X10.  Root collapse does not change what is dropped: a flattened path
    is in the drop-set exactly when no requested path that is present in
    the schema occurs in it as a substring.  In particular a requested
    path that is present in the schema is never in the drop-set. *)
Theorem drop_set_iff_no_requested_substring
        (order : SetOrder) (self : WhitelistProcessor) (df : DataFrame) :
  (forall p,
      In p (value (find_fields_to_drop self df)) <->
      In p (flatten_schema (schema df)) /\
      (forall w, In w (whitelist_columns self) ->
                 In w (flatten_schema (schema df)) -> ~ Substring w p)) /\
  (forall w, In w (whitelist_columns self) ->
             In w (flatten_schema (schema df)) ->
             ~ In w (value (find_fields_to_drop self df))).
Proof.
  split.
  - intros p. rewrite drop_set_by_requested.
    split; intros [Fp H]; split; auto; intros w Hw Fw.
    + rewrite <- str_in_Substring, (H w Hw Fw). discriminate.
    + specialize (H w Hw Fw). rewrite <- str_in_Substring in H.
      now destruct (str_in w p).
  - intros w Hw Fw Dw. apply drop_set_by_requested in Dw as [_ H].
    specialize (H w Hw Fw). rewrite str_in_refl in H. discriminate H.
Qed.

(** X11.  Requesting more never drops more: if every path of one whitelist
    is also in a second one, each path dropped for the second is dropped
    for the first.  Hence whitelists with the same paths, in any order and
    with any repetitions, give the same drop-set. *)
Theorem drop_set_antitone
        (order : SetOrder) (self self' : WhitelistProcessor)
        (df : DataFrame) :
  (forall w, In w (whitelist_columns self) ->
             In w (whitelist_columns self')) ->
  (forall p, In p (value (find_fields_to_drop self' df)) ->
             In p (value (find_fields_to_drop self df))) /\
  ((forall w, In w (whitelist_columns self') ->
              In w (whitelist_columns self)) ->
   Permutation (value (find_fields_to_drop self df))
               (value (find_fields_to_drop self' df))).
Proof.
  intros Hsub.
  assert (Hmono : forall a b : WhitelistProcessor,
             (forall w, In w (whitelist_columns a) ->
                        In w (whitelist_columns b)) ->
             forall p, In p (value (find_fields_to_drop b df)) ->
                       In p (value (find_fields_to_drop a df))).
  { intros a b Hab p Hp. apply drop_set_by_requested in Hp as [Fp H].
    apply drop_set_by_requested. split; auto. }
  split; [now apply Hmono|].
  intros Hsup. apply NoDup_Permutation.
  - rewrite find_fields_to_drop_value. apply set_of_NoDup.
  - rewrite find_fields_to_drop_value. apply set_of_NoDup.
  - intros p. split; apply Hmono; auto.
Qed.

Lemma drop_set_antitone_witness :
  (forall p,
      In p (value (find_fields_to_drop
                     {| whitelist_columns := ["d"; "a.b"; "d"] |} df_abcd)) ->
      In p (value (find_fields_to_drop
                     {| whitelist_columns := ["a.b"] |} df_abcd))) /\
  In "d" (value (find_fields_to_drop
                   {| whitelist_columns := ["a.b"] |} df_abcd)).
Proof.
  split; [|vm_compute; auto].
  apply (@drop_set_antitone
           nodup_order {| whitelist_columns := ["a.b"] |}
           {| whitelist_columns := ["d"; "a.b"; "d"] |} df_abcd).
  simpl. intuition.
Defined.

(** X12.  If the schema has at least one path and in every flattened path
    some requested path that is present in the schema occurs (for instance
    when every top-level field is requested), the drop-set is empty and
    [process] returns the frame as it is: nothing is dropped, cached or
    limited. *)
Theorem whitelisting_everything_is_identity
        (order : SetOrder) (self : WhitelistProcessor) (df : DataFrame) :
  flatten_schema (schema df) <> [] ->
  (forall p, In p (flatten_schema (schema df)) ->
             exists w, In w (whitelist_columns self) /\
                       In w (flatten_schema (schema df)) /\
                       Substring w p) ->
  value (find_fields_to_drop self df) = [] /\
  value (process self df) = df.
Proof.
  intros Hne Hall.
  assert (Hdrop : value (find_fields_to_drop self df) = []).
  { apply empty_when_no_member. intros p Hp.
    apply drop_set_by_requested in Hp as [Fp H].
    destruct (Hall p Fp) as [w [Hw [Fw S]]].
    apply str_in_Substring in S. rewrite (H w Hw Fw) in S.
    discriminate S. }
  split; [exact Hdrop|].
  assert (E : no_fields_to_select self df = false).
  { apply no_fields_to_select_false.
    destruct (flatten_schema (schema df)) as [|p t] eqn:F; [now elim Hne|].
    destruct (Hall p (or_introl eq_refl)) as [w [Hw [Fw _]]]. eauto. }
  rewrite (process_selecting self df E), !value_bind, Hdrop.
  reflexivity.
Qed.

Lemma whitelisting_everything_is_identity_witness :
  value (process {| whitelist_columns := ["d"; "a"] |} df_abcd) = df_abcd.
Proof.
  apply (@whitelisting_everything_is_identity
           nodup_order {| whitelist_columns := ["d"; "a"] |} df_abcd).
  - discriminate.
  - simpl. intros p [<- | [<- | [<- | [<- | []]]]].
    + exists "a". repeat split; auto. exists "", "". reflexivity.
    + exists "a". repeat split; auto. exists "", ".b". reflexivity.
    + exists "a". repeat split; auto. exists "", ".c". reflexivity.
    + exists "d". repeat split; auto 6. exists "", "". reflexivity.
Defined.

(** X13.  [find_fields_to_drop] logs nothing exactly when every requested
    path is present in the schema and no requested path is a non-empty
    proper textual prefix of another requested path. *)
Theorem find_fields_to_drop_silent_iff
        (order : SetOrder) (self : WhitelistProcessor) (df : DataFrame) :
  logs (find_fields_to_drop self df) = [] <->
  (forall w, In w (whitelist_columns self) ->
             In w (flatten_schema (schema df))) /\
  (forall x g, In x (whitelist_columns self) ->
               In g (whitelist_columns self) ->
               x <> "" -> x <> g -> ~ Prefix x g).
Proof.
  rewrite find_fields_to_drop_logs, whitelist_parent_fields_logs.
  rewrite filter_only_existing_fields_logs, filter_only_parents_fields_logs.
  set (existing := value (filter_only_existing_fields
                            (schema df) (whitelist_columns self))).
  assert (Habs : filter (fun f => negb (is_column_exist (schema df) f))
                        (distinct (whitelist_columns self)) = [] <->
                 (forall w, In w (whitelist_columns self) ->
                            In w (flatten_schema (schema df)))).
  { split.
    - intros E w Hw. destruct (is_column_exist (schema df) w) eqn:X.
      + now apply mem_In.
      + assert (Y : In w (filter
                            (fun f => negb (is_column_exist (schema df) f))
                            (distinct (whitelist_columns self)))).
        { apply filter_In. split; [now apply distinct_In|].
          now rewrite X. }
        rewrite E in Y. destruct Y.
    - intros H. apply empty_when_no_member. intros w Hw.
      apply filter_In in Hw as [Hw X].
      apply (proj1 (distinct_In _ _)) in Hw.
      apply negb_true_iff, mem_false in X. now apply X, H. }
  split.
  - intros E. apply app_eq_nil in E as [E1 E2].
    apply map_eq_nil in E1. pose proof (proj1 Habs E1) as Hall.
    split; auto.
    intros x g Hx Hg Ne N P.
    assert (Hr : In x (root_elements existing)).
    { apply root_elements_In; [apply existing_NoDup|].
      split; [apply existing_In; auto | split; auto].
      exists g. repeat split; auto; [apply existing_In; auto|].
      now apply startswith_Prefix. }
    destruct (root_elements existing); [destruct Hr | discriminate E2].
  - intros [Hall Hno]. rewrite (proj2 Habs Hall). simpl.
    replace (root_elements existing) with (@nil string); auto.
    symmetry. apply empty_when_no_member. intros r Hr.
    apply root_elements_In in Hr as [Hr [Ne [g [Hg [N P]]]]];
      [|apply existing_NoDup].
    apply existing_In in Hr as [Hr _]. apply existing_In in Hg as [Hg _].
    apply (Hno r g); auto. now apply startswith_Prefix.
Qed.

(** * The schema after the drops *)




Section DropOnePath.

Variable x : string.



End DropOnePath.






(** * Applying the selector to its own output *)




(** * A parent requested together with its child *)

(** C5, as stated, fails: a request that contains a.b and a.b.c, both
    present in the schema [{a: {b: {c: int}}, d: int}], and also d,
    resolves to the keep-roots a.b and d, not to a.b alone. *)
Lemma parent_child_and_more_counterexample :
  let self := {| whitelist_columns := ["a.b"; "a.b.c"; "d"] |} in
  is_column_exist (schema df_nested_d) "a.b" = true /\
  is_column_exist (schema df_nested_d) "a.b.c" = true /\
  value (filter_only_parents_fields ["a.b"; "a.b.c"; "d"]) = ["a.b"; "d"] /\
  value (whitelist_parent_fields self df_nested_d) = ["a.b"; "d"].
Proof. repeat split. Qed.

(** C5, amended.  If the whitelist request contains both a.b and a.b.c,
    both present in the schema, then a warning naming a.b among the root
    elements is recorded, a.b.c is not a keep-root, and some keep-root
    occurs in a.b; if the request holds no other path, the resolved
    keep-root set is exactly a.b. *)
Theorem parent_and_child_requested
        (order : SetOrder) (df : DataFrame) (requested : list string) :
  In "a.b" requested ->
  In "a.b.c" requested ->
  is_column_exist (schema df) "a.b" = true ->
  is_column_exist (schema df) "a.b.c" = true ->
  let self := {| whitelist_columns := requested |} in
  let keep_roots := value (whitelist_parent_fields self df) in
  ~ In "a.b.c" keep_roots /\
  (exists roots, In "a.b" roots /\
                 In (WARNING, RootElementsFound roots)
                    (logs (find_fields_to_drop self df))) /\
  (exists r, In r keep_roots /\ Substring r "a.b") /\
  ((forall x, In x requested -> x = "a.b" \/ x = "a.b.c") ->
   keep_roots = ["a.b"] /\
   logs (whitelist_parent_fields self df)
   = [(WARNING, RootElementsFound ["a.b"])]).
Proof.
  intros Hp Hc Ep Ec self keep_roots.
  apply mem_In in Ep. apply mem_In in Ec.
  set (surviving := value (filter_only_existing_fields
                             (schema df) (whitelist_columns self))).
  assert (Sp : In "a.b" surviving) by (apply existing_In; auto).
  assert (Sc : In "a.b.c" surviving) by (apply existing_In; auto).
  assert (Hroot : In "a.b" (root_elements surviving)).
  { apply root_elements_In; [apply existing_NoDup|].
    split; auto. split; [discriminate|].
    exists "a.b.c". repeat split; auto. discriminate. }
  split; [|split; [|split]].
  - intros Hk. apply keep_root_In in Hk as [_ Hk].
    discriminate (Hk "a.b" Hroot eq_refl).
  - exists (root_elements surviving). split; auto.
    rewrite find_fields_to_drop_logs, whitelist_parent_fields_logs.
    apply in_or_app. right. rewrite filter_only_parents_fields_logs.
    fold surviving. destruct (root_elements surviving); [destruct Hroot|].
    now left.
  - destruct (@existing_has_keep_root order self df "a.b" Sp) as [r [Hr E]].
    exists r. split; auto. now apply str_in_Substring.
  - intros Honly.
    destruct (@only_parent_and_child_requested
                order df requested Hp Hc Honly Ep Ec) as [H1 [H2 _]].
    split; assumption.
Qed.

Lemma parent_and_child_requested_witness :
  ~ In "a.b.c"
      (value (whitelist_parent_fields
                {| whitelist_columns := ["a.b.c"; "d"; "a.b"] |} df_nested_d)) /\
  value (whitelist_parent_fields
           {| whitelist_columns := ["a.b.c"; "a.b"; "a.b.c"] |} df_nested)
  = ["a.b"].
Proof.
  split.
  - apply (@parent_and_child_requested
             nodup_order df_nested_d ["a.b.c"; "d"; "a.b"]);
      simpl; auto.
  - apply (@parent_and_child_requested
             nodup_order df_nested ["a.b.c"; "a.b"; "a.b.c"]);
      simpl; intuition.
Defined.

(** * A flattened path above a requested path *)



